(** * royalbit/ref: the headless-Chrome link checker and data refresher

    A shallow embedding of [bin/check-links.js] (URL extraction, the
    per-URL check, the worker pool, the report) and of [refresh-data.js]
    (extractor dispatch and the guarded extraction), followed by the
    properties of the engine specification that are settled on it.

    Conventions of the embedding.
    - A JavaScript string is a [string]; a character is one code unit in
      the Latin-1 range.  A value that may be [null] or [undefined] is an
      [option].
    - HTTP statuses and counters are integers; statuses are [Z], counters
      are [nat].
    - The browser is the environment: what [page.goto] does for an attempt
      is a value of type [Nav], supplied from outside.
    - The asynchronous workers of [processUrls] are a step function on an
      explicit state; one step is one run-to-completion segment between two
      [await]s of one worker. *)

From Stdlib Require Import ZArith Ascii String List Lia Sorted Permutation.
From stdpp Require Import base option list gmap strings sorting.

Local Open Scope string_scope.
Local Open Scope Z_scope.
Local Open Scope list_scope.

(** ** JavaScript primitives used by the two programs *)

Module Js.

(** Outcome of an [async] function or of a statement block: it returns
    (resolves), throws an [Error] carrying a message (rejects), or ends
    the process through [process.exit]. *)
Inductive Completion (A : Type) : Type :=
| Normal (a : A)
| Throw (message : string)
| Exit (code : Z) (stderr : list string).
Arguments Normal {A} a.
Arguments Throw {A} message.
Arguments Exit {A} code stderr.

Definition bind {A B} (c : Completion A) (k : A → Completion B) : Completion B :=
  match c with
  | Normal a => k a
  | Throw m => Throw m
  | Exit n e => Exit n e
  end.

(** [try { body } catch (err) { handler(err.message) }] *)
Definition try_catch {A} (body : Completion A) (handler : string → Completion A)
  : Completion A :=
  match body with
  | Throw m => handler m
  | other => other
  end.

(** [try { ... } finally { fin }]: the [finally] block runs after the
    protected block; when it throws, its exception replaces the outcome
    of the protected block.  [process.exit] skips it. *)
Definition finally {A} (body : Completion A) (fin : Completion unit) : Completion A :=
  match body with
  | Exit n e => Exit n e
  | _ => match fin with
         | Normal _ => body
         | Throw m => Throw m
         | Exit n e => Exit n e
         end
  end.

(** Truthiness of a string that may be [undefined]: [!url] holds for
    [undefined] and for the empty string. *)
Definition truthy (v : option string) : bool :=
  match v with
  | Some s => negb (String.eqb s EmptyString)
  | None => false
  end.

(** [n || d] on a number that may be [null]: [null] and [0] give [d]. *)
Definition num_or (v : option Z) (d : Z) : Z :=
  match v with
  | Some n => if n =? 0 then d else n
  | None => d
  end.

(** [s || d] on a string that may be missing: the empty string gives [d]. *)
Definition str_or (v : option string) (d : string) : string :=
  match v with
  | Some s => if String.eqb s EmptyString then d else s
  | None => d
  end.

(** [s.startsWith(p)] *)
Definition startsWith (s p : string) : bool := String.prefix p s.

(** [s.includes(p)]: [p] occurs at some position of [s]. *)
Fixpoint includes (s p : string) : bool :=
  String.prefix p s ||
  match s with
  | EmptyString => false
  | String _ s' => includes s' p
  end.

(** White space of [\s] and of [trim] within Latin-1: TAB, LF, VT, FF,
    CR, SPACE and NBSP. *)
Definition is_space (c : ascii) : bool :=
  let n := nat_of_ascii c in
  ((9 <=? n)%nat && (n <=? 13)%nat) || (n =? 32)%nat || (n =? 160)%nat.

Definition is_digit (c : ascii) : bool :=
  let n := nat_of_ascii c in (48 <=? n)%nat && (n <=? 57)%nat.

Fixpoint trimStart (s : string) : string :=
  match s with
  | EmptyString => EmptyString
  | String c s' => if is_space c then trimStart s' else s
  end.

Fixpoint all_space (s : string) : bool :=
  match s with
  | EmptyString => true
  | String c s' => is_space c && all_space s'
  end.

Fixpoint trimEnd (s : string) : string :=
  match s with
  | EmptyString => EmptyString
  | String c s' => if all_space s then EmptyString else String c (trimEnd s')
  end.

(** [s.trim()] *)
Definition trim (s : string) : string := trimEnd (trimStart s).

(** [s.split('\n')]: the pieces between line feeds; an empty string
    gives one empty piece. *)
Fixpoint split_lines (s : string) : list string :=
  match s with
  | EmptyString => [EmptyString]
  | String c s' =>
      if Ascii.eqb c "010"%char then EmptyString :: split_lines s'
      else match split_lines s' with
           | l :: ls => String c l :: ls
           | [] => [String c EmptyString]
           end
  end.

(** Digits of [parseInt(_, 10)]: the value of the longest prefix of
    decimal digits, read onto the accumulator; [seen] tells whether a
    digit was read. *)
Fixpoint digits (s : string) (acc : Z) (seen : bool) : option Z :=
  match s with
  | String c s' =>
      if is_digit c
      then digits s' (10 * acc + Z.of_nat (nat_of_ascii c - 48)) true
      else if seen then Some acc else None
  | EmptyString => if seen then Some acc else None
  end.

(** [parseInt(s, 10)]: leading white space, an optional sign, then the
    digits; [None] is [NaN].  The exact integer is kept; the
    floating-point rounding of very long digit strings moves no value
    across the bounds the caller compares with. *)
Definition parseInt (s : string) : option Z :=
  match trimStart s with
  | String "-" r => Z.opp <$> digits r 0 false
  | String "+" r => digits r 0 false
  | r => digits r 0 false
  end.

(** [[...new Set(xs)]]: the distinct elements in order of first
    occurrence. *)
Definition set_spread (xs : list string) : list string :=
  fold_left (λ (seen : list string) x,
               if bool_decide (x ∈ seen) then seen else (seen ++ [x])%list) xs [].

(** [Array.prototype.sort(cmp)] with a comparator that returns a number.
    The sort is stable: [x] goes in front of the first element it must
    not follow, so elements that compare equal keep their input order. *)
Section Sort.
Context {A : Type} (cmp : A → A → Z).

Fixpoint insert_sorted (x : A) (l : list A) : list A :=
  match l with
  | [] => [x]
  | y :: l' => if cmp x y <=? 0 then x :: l else y :: insert_sorted x l'
  end.

Definition sort (l : list A) : list A := foldr insert_sorted [] l.
End Sort.

End Js.
Import Js.

(** ** check-links.js *)

Module CheckLinks.

(** The module-level [CONFIG] object. *)
Record Config := {
  concurrency : nat;
  timeout : Z;
  userAgent : string;
  headless : bool;
  retries : Z;
}.

Definition CONFIG : Config := {|
  concurrency := 5;
  timeout := 15000;
  userAgent := "Mozilla/5.0 (Macintosh; Intel Mac OS X 10_15_7) AppleWebKit/537.36 (KHTML, like Gecko) Chrome/120.0.0.0 Safari/537.36";
  headless := true;
  retries := 1;
|}.

(** *** extractUrls *)

(** The negated class of the URL pattern: anything but white space, a
    closing parenthesis, a closing angle or square bracket, a double
    quote (character 34) or a single quote. *)
Definition url_char (c : ascii) : bool :=
  negb (is_space c
        || Ascii.eqb c ")" || Ascii.eqb c ">" || Ascii.eqb c "]"
        || Ascii.eqb c (ascii_of_nat 34) || Ascii.eqb c "'").

(** The longest run of URL characters at the head of [s]. *)
Fixpoint url_run (s : string) : string :=
  match s with
  | String c s' => if url_char c then String c (url_run s') else EmptyString
  | EmptyString => EmptyString
  end.

(** The colon, the two slashes and one or more URL characters at the
    head of [s], after the scheme [pre]. *)
Definition match_tail (pre s : string) : option string :=
  if String.prefix "://" s then
    match url_run (String.substring 3 (String.length s - 3) s) with
    | EmptyString => None
    | body => Some (pre +:+ "://" +:+ body)
    end
  else None.

(** One attempt of [urlPattern] at the head of [s]: [http], an optional
    [s] (tried first, then left out), and the tail. *)
Definition match_here (s : string) : option string :=
  if String.prefix "http" s then
    let r := String.substring 4 (String.length s - 4) s in
    match (match r with
           | String "s" r' => match_tail "https" r'
           | _ => None
           end) with
    | Some m => Some m
    | None => match_tail "http" r
    end
  else None.

(** [content.match(urlPattern) || []] with the [g] flag: the matches from
    left to right, without overlap.  [skip] counts the characters of the
    last match that are still to be passed over. *)
Fixpoint match_all (skip : nat) (s : string) : list string :=
  match s with
  | EmptyString => []
  | String _ s' =>
      match skip with
      | S k => match_all k s'
      | O => match match_here s with
             | Some m => m :: match_all (String.length m - 1) s'
             | None => match_all 0 s'
             end
      end
  end.

(** The class [[,.\)]] of the cleaning pattern. *)
Definition punct (c : ascii) : bool :=
  Ascii.eqb c "," || Ascii.eqb c "." || Ascii.eqb c ")".

Fixpoint all_punct (s : string) : bool :=
  match s with
  | EmptyString => true
  | String c s' => punct c && all_punct s'
  end.

(** [url.replace(/[,.\)]+$/, '')]: the pattern matches at the leftmost
    position from which only punctuation follows up to the end. *)
Fixpoint clean (s : string) : string :=
  match s with
  | EmptyString => EmptyString
  | String c s' => if all_punct s then EmptyString else String c (clean s')
  end.

Definition extractUrls (content : string) : list string :=
  set_spread (clean <$> match_all 0 content).

(** *** checkUrl *)

(** What [page.goto] answers with: a response, or [null]. *)
Record Response := { resp_status : Z; resp_statusText : string }.

(** The environment's side of one attempt: the navigation resolves (with
    the response or [null], the page title or [null] when reading it
    fails, and the elapsed milliseconds) or rejects with an error. *)
Inductive Nav :=
| Resolved (response : option Response) (page_title : option string) (elapsed : Z)
| Rejected (message : string) (elapsed : Z).

(** The [result] object of [checkUrl]; [None] is [null]. *)
Record Result := {
  url : string;
  status : option Z;
  statusText : option string;
  title : option string;
  error : option string;
  time : option Z;
}.

Definition with_status (r : Result) (st : Z) (text : string) : Result :=
  {| url := url r; status := Some st; statusText := Some text;
     title := title r; error := error r; time := time r |}.

Definition checkUrl (u : string) (nav : Nav) : Result :=
  match nav with
  | Resolved response t ms =>
      {| url := u;
         status := Some (num_or (resp_status <$> response) 0);
         statusText := Some (str_or (resp_statusText <$> response) "Unknown");
         title := t;
         error := None;
         time := Some ms |}
  | Rejected message ms =>
      let result := {| url := u; status := None; statusText := None;
                       title := None; error := Some message; time := Some ms |} in
      if includes message "net::ERR_NAME_NOT_RESOLVED" then
        with_status result 0 "DNS_FAILED"
      else if includes message "net::ERR_CONNECTION_REFUSED" then
        with_status result 0 "CONNECTION_REFUSED"
      else if includes message "net::ERR_CONNECTION_TIMED_OUT" then
        with_status result 0 "TIMEOUT"
      else if includes message "Navigation timeout" then
        with_status result 0 "NAV_TIMEOUT"
      else result
  end.

(** The values a property of the [result] object holds. *)
Inductive Value := VNull | VNum (n : Z) | VStr (s : string).

Definition of_num (v : option Z) : Value := from_option VNum VNull v.
Definition of_str (v : option string) : Value := from_option VStr VNull v.

(** The own properties of the [result] object, in the order of the object
    literal that opens [checkUrl]; the assignments that follow it only
    overwrite them. *)
Definition properties (r : Result) : list (string * Value) :=
  [ ("url", VStr (url r));
    ("status", of_num (status r));
    ("statusText", of_str (statusText r));
    ("title", of_str (title r));
    ("error", of_str (error r));
    ("time", of_num (time r)) ].

(** [obj[key]]; [None] is [undefined]. *)
Definition property (key : string) (r : Result) : option Value :=
  snd <$> find (λ kv, String.eqb (fst kv) key) (properties r).

(** *** processUrls *)

(** Where one worker stands between two run-to-completion segments. *)
Inductive Phase :=
| Opening                                (* awaiting the page set-up *)
| Fetching (u : string) (again : bool)   (* awaiting [checkUrl]; [again] on the retry *)
| Sleeping (u : string) (ms : Z)         (* awaiting the [setTimeout] promise *)
| Closed.                                (* left the loop, page closed *)

(** The variables the workers share, and the workers.  [attempts] is a
    history variable that the program does not have: every value
    [checkUrl] has returned, oldest first. *)
Record Pool := {
  queue : list (option string);
  results : list Result;
  workers : list Phase;
  attempts : list Result;
}.

(** The head of the [while] loop: test the queue, [shift], and leave on an
    empty queue or a falsy URL. *)
Definition next (q : list (option string)) : Phase * list (option string) :=
  match q with
  | [] => (Closed, [])
  | v :: q' =>
      match v with
      | Some u => if truthy v then (Fetching u false, q') else (Closed, q')
      | None => (Closed, q')
      end
  end.

(** The guard of the retry: [result.status === 0 && CONFIG.retries > 0]. *)
Definition retry_wanted (cfg : Config) (r : Result) : bool :=
  bool_decide (status r = Some 0) && (0 <? retries cfg).

(** One segment of worker [i]; [nav] is what the browser answers when the
    segment resumes from a navigation, and is not looked at otherwise.
    A worker that has left the loop, or that does not exist, cannot step. *)
Definition step (cfg : Config) (i : nat) (nav : Nav) (s : Pool) : option Pool :=
  match workers s !! i with
  | Some Opening =>
      let '(ph, q) := next (queue s) in
      Some {| queue := q; results := results s;
              workers := <[i := ph]> (workers s); attempts := attempts s |}
  | Some (Fetching u false) =>
      let result := checkUrl u nav in
      if retry_wanted cfg result then
        Some {| queue := queue s; results := results s;
                workers := <[i := Sleeping u 1000]> (workers s);
                attempts := attempts s ++ [result] |}
      else
        let '(ph, q) := next (queue s) in
        Some {| queue := q; results := results s ++ [result];
                workers := <[i := ph]> (workers s);
                attempts := attempts s ++ [result] |}
  | Some (Sleeping u _) =>
      Some {| queue := queue s; results := results s;
              workers := <[i := Fetching u true]> (workers s);
              attempts := attempts s |}
  | Some (Fetching u true) =>
      let result := checkUrl u nav in
      let '(ph, q) := next (queue s) in
      Some {| queue := q; results := results s ++ [result];
              workers := <[i := ph]> (workers s);
              attempts := attempts s ++ [result] |}
  | Some Closed | None => None
  end.

(** The state when the [for] loop has started every worker: each one ran
    up to its first [await]. *)
Definition start (cfg : Config) (urls : list (option string)) : Pool :=
  {| queue := urls; results := []; workers := replicate (concurrency cfg) Opening;
     attempts := [] |}.

(** A schedule: which worker resumes, and with which answer. *)
Fixpoint run (cfg : Config) (events : list (nat * Nav)) (s : Pool) : option Pool :=
  match events with
  | [] => Some s
  | (i, nav) :: rest =>
      match step cfg i nav s with
      | Some s' => run cfg rest s'
      | None => None
      end
  end.

Definition is_closed (p : Phase) : bool :=
  match p with Closed => true | _ => false end.

Definition is_fetching (p : Phase) : bool :=
  match p with Fetching _ _ => true | _ => false end.

(** [Promise.all(workers)] has resolved. *)
Definition completed (s : Pool) : bool := forallb is_closed (workers s).

(** The navigations in flight. *)
Definition in_flight (s : Pool) : nat := length (filter is_fetching (workers s)).

(** [processUrls(urls, browser)] under a schedule: the array it returns
    when the schedule runs every worker to its end. *)
Definition processUrls (cfg : Config) (urls : list (option string))
    (events : list (nat * Nav)) : option (list Result) :=
  match run cfg events (start cfg urls) with
  | Some s => if completed s then Some (results s) else None
  | None => None
  end.

(** *** generateReport *)

Record Summary := {
  total : nat;
  ok : nat;
  redirects : nat;
  clientErrors : nat;
  serverErrors : nat;
  blocked : nat;
  failed : nat;
}.

Inductive Bucket := Ok | Redirect | Blocked | ClientError | ServerError | Failed.

(** The chain of tests in the loop of [generateReport], on
    [status = r.status || 0]. *)
Definition bucket_of (st : Z) : Bucket :=
  if (200 <=? st) && (st <? 300) then Ok
  else if (300 <=? st) && (st <? 400) then Redirect
  else if st =? 403 then Blocked
  else if (400 <=? st) && (st <? 500) then ClientError
  else if 500 <=? st then ServerError
  else Failed.

(** The increment each branch of the chain performs. *)
Definition count (b : Bucket) (s : Summary) : Summary :=
  match b with
  | Ok => {| total := total s; ok := S (ok s); redirects := redirects s;
             clientErrors := clientErrors s; serverErrors := serverErrors s;
             blocked := blocked s; failed := failed s |}
  | Redirect => {| total := total s; ok := ok s; redirects := S (redirects s);
             clientErrors := clientErrors s; serverErrors := serverErrors s;
             blocked := blocked s; failed := failed s |}
  | Blocked => {| total := total s; ok := ok s; redirects := redirects s;
             clientErrors := clientErrors s; serverErrors := serverErrors s;
             blocked := S (blocked s); failed := failed s |}
  | ClientError => {| total := total s; ok := ok s; redirects := redirects s;
             clientErrors := S (clientErrors s); serverErrors := serverErrors s;
             blocked := blocked s; failed := failed s |}
  | ServerError => {| total := total s; ok := ok s; redirects := redirects s;
             clientErrors := clientErrors s; serverErrors := S (serverErrors s);
             blocked := blocked s; failed := failed s |}
  | Failed => {| total := total s; ok := ok s; redirects := redirects s;
             clientErrors := clientErrors s; serverErrors := serverErrors s;
             blocked := blocked s; failed := S (failed s) |}
  end.

(** The bucket of an outcome. *)
Definition classify (r : Result) : Bucket := bucket_of (num_or (status r) 0).

(** One turn of the loop over [results]: the histogram, then the bucket. *)
Definition tally (acc : Summary * gmap Z nat) (r : Result) : Summary * gmap Z nat :=
  let st := num_or (status r) 0 in
  (count (bucket_of st) acc.1,
   <[st := (default 0%nat (acc.2 !! st) + 1)%nat]> acc.2).

(** The comparator handed to [results.sort]. *)
Definition by_status (a b : Result) : Z :=
  num_or (status a) 999 - num_or (status b) 999.

Record Report := {
  summary : Summary;
  byStatus : gmap Z nat;
  report_results : list Result;
  timestamp : string;
}.

(** [generateReport(results)]; [now] is the clock reading of
    [new Date().toISOString()]. *)
Definition generateReport (now : string) (rs : list Result) : Report :=
  let init := {| total := length rs; ok := 0; redirects := 0; clientErrors := 0;
                 serverErrors := 0; blocked := 0; failed := 0 |} in
  let '(sm, hist) := fold_left tally rs (init, ∅) in
  {| summary := sm; byStatus := hist;
     report_results := Js.sort by_status rs; timestamp := now |}.

(** *** main: the command line *)

(** What [main] reads from outside: [process.argv.slice(2)], and the file
    system calls it makes.  [stdin] is [fs.readFileSync(0, 'utf-8')];
    reading can throw (a directory, a file that may not be read, a closed
    descriptor), also when [existsSync] has answered true. *)
Record Invocation := {
  argv : list string;
  stdin : Completion string;
  existsSync : string → bool;
  readFileSync : string → Completion string;
}.

(** [args.indexOf(x)], [-1] when absent. *)
Fixpoint indexOf (x : string) (args : list string) : Z :=
  match args with
  | [] => -1
  | a :: rest =>
      if String.eqb a x then 0
      else let i := indexOf x rest in if i =? -1 then -1 else i + 1
  end.

(** [args[i]]; [None] is [undefined]. *)
Definition at_index (args : list string) (i : Z) : option string :=
  if i <? 0 then None else args !! Z.to_nat i.

Definition usage : list string :=
  [ "Usage:";
    "  node check-links.js <file.md>      Check URLs in markdown file";
    "  node check-links.js --url <URL>    Check single URL";
    "  node check-links.js --stdin        Read URLs from stdin" ].

(** The lines of standard input that name a URL. *)
Definition stdin_urls (input : string) : list string :=
  filter (λ u, Is_true (startsWith (trim u) "http")) (split_lines input).

(** [if (urls.length === 0) { ...; process.exit(1) }] *)
Definition nonempty (urls : list (option string)) : Completion (list (option string)) :=
  match urls with
  | [] => Exit 1 ["No URLs found."]
  | _ => Normal urls
  end.

(** The list [main] of [bin/check-links.js] hands to [processUrls]. *)
Definition frontier (inv : Invocation) : Completion (list (option string)) :=
  let args := argv inv in
  bind
    (if bool_decide ("--url" ∈ args) then
       Normal [at_index args (indexOf "--url" args + 1)]
     else if bool_decide ("--stdin" ∈ args) then
       bind (stdin inv) (λ input, Normal (Some <$> stdin_urls input))
     else
       match args with
       | a :: _ =>
           if existsSync inv a then
             bind (readFileSync inv a) (λ content,
             Normal (Some <$> extractUrls content))
           else Exit 1 usage
       | [] => Exit 1 usage
       end)
    nonempty.

(** [main().catch(err => ...)]: an error that leaves [main] is printed and
    the process exits with status 1. *)
Definition fatal {A : Type} (c : Completion A) : Completion A :=
  try_catch c (λ message, Exit 1 ["Fatal error: " +:+ message]).

(** The later revision of the script adds the [-c] option. *)

(** [getArg(args, ...flags)] *)
Fixpoint getArg (args flags : list string) : option string :=
  match flags with
  | [] => None
  | flag :: rest =>
      let idx := indexOf flag args in
      if negb (idx =? -1) && truthy (at_index args (idx + 1))
      then at_index args (idx + 1)
      else getArg args rest
  end.

Definition with_concurrency (cfg : Config) (n : nat) : Config :=
  {| concurrency := n; timeout := timeout cfg; userAgent := userAgent cfg;
     headless := headless cfg; retries := retries cfg |}.

Definition concurrency_error : list string :=
  ["Concurrency must be between 1 and 20"].

(** The block [// Parse concurrency option] of [main]: the configuration
    the run goes on with, or the exit.  A [NaN] fails both comparisons. *)
Definition parse_concurrency (cfg : Config) (args : list string) : Completion Config :=
  let concurrencyArg := getArg args ["-c"; "--concurrency"] in
  match concurrencyArg with
  | Some a =>
      if truthy concurrencyArg then
        match parseInt a with
        | Some n =>
            if (0 <? n) && (n <=? 20)
            then Normal (with_concurrency cfg (Z.to_nat n))
            else Exit 1 concurrency_error
        | None => Exit 1 concurrency_error
        end
      else Normal cfg
  | None => Normal cfg
  end.

Definition usage_c : list string :=
  [ "Usage:";
    "  check-links <file.md>              Check URLs in markdown file";
    "  check-links --url <URL>            Check single URL";
    "  check-links --stdin                Read URLs from stdin";
    EmptyString;
    "Options:";
    "  -c, --concurrency <N>   Parallel browser tabs (default: 5, max: 20)" ].

(** The input block of the later [main], which runs after the concurrency
    block: the file is the first argument that is neither a flag nor the
    concurrency value. *)
Definition frontier_c (inv : Invocation) : Completion (list (option string)) :=
  let args := argv inv in
  let concurrencyArg := getArg args ["-c"; "--concurrency"] in
  bind
    (if bool_decide ("--url" ∈ args) then
       Normal [at_index args (indexOf "--url" args + 1)]
     else if bool_decide ("--stdin" ∈ args) then
       bind (stdin inv) (λ input, Normal (Some <$> stdin_urls input))
     else
       match find (λ a, negb (startsWith a "-")
                        && negb (bool_decide (Some a = concurrencyArg))) args with
       | Some f =>
           if truthy (Some f) && existsSync inv f then
             bind (readFileSync inv f) (λ content,
             Normal (Some <$> extractUrls content))
           else Exit 1 usage_c
       | None => Exit 1 usage_c
       end)
    nonempty.

(** The start of [main] in the later revision: the option, then the
    input; what it hands to [processUrls] is the list of [prepare]. *)
Definition prepare (inv : Invocation) : Completion (Config * list (option string)) :=
  bind (parse_concurrency CONFIG (argv inv)) (λ cfg,
  bind (frontier_c inv) (λ urls, Normal (cfg, urls))).

End CheckLinks.

(** ** refresh-data.js *)

Module RefreshData.

(** The keys of the [EXTRACTORS] table. *)
Inductive Extractor := instagram | statista | generic.

(** [getExtractor(url)] *)
Definition getExtractor (url : string) : Extractor :=
  if includes url "instagram.com" then instagram
  else if includes url "statista.com" then statista
  else generic.

Section Extraction.
(** What [page.evaluate] hands back for a strategy. *)
Context {Data : Type}.

(** A browser page as the script uses it. *)
Record Page := {
  configure : Completion unit;            (* user agent, viewport, interception *)
  goto : string → Completion unit;
  waitForSelector : Completion unit;
  evaluate : Extractor → Completion Data;
  close : Completion unit;
}.

Record Browser := { newPage : Completion Page }.

(** The object [extractData] returns. *)
Record Extraction := {
  x_url : string;
  x_type : Extractor;
  x_data : option Data;
  x_success : option bool;
  x_error : option string;
  x_timestamp : option string;
}.

(** The strategies of [EXTRACTORS]: navigate, read the page, and wrap
    the data with the type and the URL.  The instagram strategy waits
    for the header first and ignores a failure of that wait. *)
Definition EXTRACTORS (e : Extractor) (page : Page) (url : string)
  : Completion Extraction :=
  bind (goto page url) (λ _,
  bind (match e with
        | instagram => try_catch (waitForSelector page) (λ _, Normal ())
        | _ => Normal ()
        end) (λ _,
  bind (evaluate page e) (λ data,
  Normal {| x_url := url; x_type := e; x_data := Some data;
            x_success := None; x_error := None; x_timestamp := None |}))).

(** [extractData(browser, url)]; [now] is the clock reading. *)
Definition extractData (now : string) (browser : Browser) (url : string)
  : Completion Extraction :=
  bind (newPage browser) (λ page,
  bind (configure page) (λ _,
  let extractorName := getExtractor url in
  let extractor := EXTRACTORS extractorName in
  finally
    (try_catch
       (bind (extractor page url) (λ result,
        Normal {| x_url := x_url result; x_type := x_type result;
                  x_data := x_data result; x_success := Some true;
                  x_error := x_error result; x_timestamp := Some now |}))
       (λ message,
        Normal {| x_url := url; x_type := extractorName; x_data := None;
                  x_success := Some false; x_error := Some message;
                  x_timestamp := Some now |}))
    (close page))).
End Extraction.
Arguments Page : clear implicits.
Arguments Browser : clear implicits.
Arguments Extraction : clear implicits.

(** *** getExtractableUrls *)

(** The negated class of the three site patterns: anything but white
    space, a closing parenthesis or a closing square bracket. *)
Definition path_char (c : ascii) : bool :=
  negb (is_space c || Ascii.eqb c ")" || Ascii.eqb c "]").

Fixpoint path_run (s : string) : string :=
  match s with
  | String c s' => if path_char c then String c (path_run s') else EmptyString
  | EmptyString => EmptyString
  end.

(** What is left of [s] behind its first [n] characters. *)
Definition behind (n : nat) (s : string) : string :=
  String.substring n (String.length s - n) s.

(** Backtracking: the first way to match that succeeds. *)
Definition or_else {A : Type} (a b : option A) : option A :=
  match a with
  | Some x => Some x
  | None => b
  end.

(** [.com/] and one or more path characters, after the text [pre]. *)
Definition match_path (pre s : string) : option string :=
  if String.prefix ".com/" s then
    match path_run (behind 5 s) with
    | EmptyString => None
    | path => Some (pre +:+ ".com/" +:+ path)
    end
  else None.

(** One of the host names of a pattern, the alternatives tried in order. *)
Fixpoint match_host (hosts : list string) (pre s : string) : option string :=
  match hosts with
  | [] => None
  | h :: rest =>
      or_else (if String.prefix h s
               then match_path (pre +:+ h) (behind (String.length h) s)
               else None)
              (match_host rest pre s)
  end.

(** The optional [www.], tried first, then left out. *)
Definition match_www (hosts : list string) (pre s : string) : option string :=
  or_else (if String.prefix "www." s
           then match_host hosts (pre +:+ "www.") (behind 4 s)
           else None)
          (match_host hosts pre s).

Definition match_slashes (hosts : list string) (pre s : string) : option string :=
  if String.prefix "://" s then match_www hosts (pre +:+ "://") (behind 3 s) else None.

(** One attempt of a site pattern at the head of [s]. *)
Definition match_site (hosts : list string) (s : string) : option string :=
  if String.prefix "http" s then
    let r := behind 4 s in
    or_else (match r with
             | String "s" r' => match_slashes hosts "https" r'
             | _ => None
             end)
            (match_slashes hosts "http" r)
  else None.

(** [content.match(pattern) || []] for a site pattern. *)
Fixpoint match_sites (hosts : list string) (skip : nat) (s : string) : list string :=
  match s with
  | EmptyString => []
  | String _ s' =>
      match skip with
      | S k => match_sites hosts k s'
      | O => match match_site hosts s with
             | Some m => m :: match_sites hosts (String.length m - 1) s'
             | None => match_sites hosts 0 s'
             end
      end
  end.

(** An entry of the work list: [{ url, type }]. *)
Record Entry := { e_url : string; e_type : string }.

(** The [patterns] table: the host names of each pattern, and its type. *)
Definition patterns : list (list string * string) :=
  [ (["instagram"], "instagram");
    (["statista"], "statista");
    (["influencermarketinghub"; "emarketer"; "techcrunch"], "market") ].

(** [map.set(k, v)] on the entries of a [Map] in insertion order: a key
    that is present keeps its place and takes the new value. *)
Fixpoint map_set (k : string) (v : Entry) (m : list (string * Entry))
  : list (string * Entry) :=
  match m with
  | [] => [(k, v)]
  | (k', v') :: m' =>
      if String.eqb k' k then (k', v) :: m' else (k', v') :: map_set k v m'
  end.

(** [[...new Map(urls.map(u => [u.url, u])).values()]] *)
Definition map_values (urls : list Entry) : list Entry :=
  snd <$> fold_left (λ m u, map_set (e_url u) u m) urls [].

Definition getExtractableUrls (content : string) : list Entry :=
  map_values
    (patterns ≫= λ p,
       (λ url, {| e_url := CheckLinks.clean url; e_type := p.2 |})
         <$> match_sites p.1 0 content).

(** *** main *)

(** The name of an extractor, as [getExtractor] returns it. *)
Definition extractor_name (e : Extractor) : string :=
  match e with
  | instagram => "instagram"
  | statista => "statista"
  | generic => "generic"
  end.

Section Main.
Context {Data : Type}.

(** What [main] meets outside: the arguments, the reading of
    [../REFERENCES.md], the launch of the browser, the browser as it stands
    when a URL has its turn, and the closing of the browser. *)
Record World := {
  w_argv : list string;
  references : Completion string;
  launch : Completion unit;
  web : string → Browser Data;
  shutdown : Completion unit;
}.

(** The work list.  [getExtractor] of a missing [--url] value throws a
    [TypeError]. *)
Definition targets (w : World) : Completion (list Entry) :=
  let args := w_argv w in
  if bool_decide ("--url" ∈ args) then
    match CheckLinks.at_index args (CheckLinks.indexOf "--url" args + 1) with
    | Some u => Normal [{| e_url := u; e_type := extractor_name (getExtractor u) |}]
    | None => Throw "Cannot read properties of undefined (reading 'includes')"
    end
  else if bool_decide ("--instagram" ∈ args) then
    bind (references w) (λ content,
    Normal (filter (λ u, e_type u = "instagram") (getExtractableUrls content)))
  else
    bind (references w) (λ content, Normal (getExtractableUrls content)).

(** The loop over the work list: one record per URL, in order. *)
Fixpoint extract_all (now : string) (site : string → Browser Data) (urls : list Entry)
  : Completion (list (Extraction Data)) :=
  match urls with
  | [] => Normal []
  | u :: rest =>
      bind (extractData now (site (e_url u)) (e_url u)) (λ result,
      bind (extract_all now site rest) (λ results, Normal (result :: results)))
  end.

Definition main (now : string) (w : World) : Completion (list (Extraction Data)) :=
  bind (targets w) (λ urls,
  match urls with
  | [] => Exit 1 ["No extractable URLs found."]
  | _ => bind (launch w) (λ _, finally (extract_all now (web w) urls) (shutdown w))
  end).

(** [main().catch(...)]: an error that leaves [main] ends the process. *)
Definition program (now : string) (w : World) : Completion (list (Extraction Data)) :=
  try_catch (main now w) (λ message, Exit 1 ["Fatal error: " +:+ message]).

End Main.
Arguments World : clear implicits.

End RefreshData.

(** ** The tables of the specification *)

Module Spec.
Import CheckLinks RefreshData.

(** The classifier table of the specification, read on the status of an
    outcome: 200-299 ok, 300-399 redirect, 403 blocked, 400-499 other than
    403 client error, 500-599 server error, anything else or a missing
    status failed. *)
Definition bucket_table (st : option Z) : Bucket :=
  match st with
  | Some n =>
      if (200 <=? n) && (n <=? 299) then Ok
      else if (300 <=? n) && (n <=? 399) then Redirect
      else if n =? 403 then Blocked
      else if (400 <=? n) && (n <=? 499) then ClientError
      else if (500 <=? n) && (n <=? 599) then ServerError
      else Failed
  | None => Failed
  end.

(** The extractor registry of the specification: match predicates in
    priority order, the catch-all last. *)
Definition registry : list ((string → bool) * Extractor) :=
  [ (λ url, includes url "instagram.com", instagram);
    (λ url, includes url "statista.com", statista);
    (λ _, true, generic) ].

(** First match wins; [None] when no entry matches. *)
Definition dispatch (table : list ((string → bool) * Extractor)) (url : string)
  : option Extractor :=
  snd <$> find (λ entry, fst entry url) table.

End Spec.

Import CheckLinks RefreshData.

(** ** Readings of the report and of the pool used in the statements *)

(** [summary[key]] for the key of a bucket. *)
Definition bucket_count (b : Bucket) (s : Summary) : nat :=
  match b with
  | Ok => ok s
  | Redirect => redirects s
  | Blocked => blocked s
  | ClientError => clientErrors s
  | ServerError => serverErrors s
  | Failed => failed s
  end.

(** The sum of the counts of [byStatus]. *)
Definition histogram_sum (m : gmap Z nat) : nat :=
  map_fold (λ _ n acc, (n + acc)%nat) 0%nat m.

(** The number the comparator of the sort reads off an outcome. *)
Definition sort_key (r : Result) : Z := num_or (status r) 999.

#[global] Instance Bucket_eq_dec : EqDecision Bucket.
Proof. solve_decision. Defined.

(** Whether the last character of a string is one the cleaning pattern
    removes. *)
Fixpoint ends_with_punct (s : string) : bool :=
  match s with
  | EmptyString => false
  | String c EmptyString => punct c
  | String _ s' => ends_with_punct s'
  end.

(** The URL a worker has taken off the queue and not yet reported. *)
Definition holding (p : Phase) : list string :=
  match p with
  | Fetching u _ => [u]
  | Sleeping u _ => [u]
  | Opening | Closed => []
  end.

Definition held (ws : list Phase) : list string := concat (holding <$> ws).

(** A bound on the segments a worker still runs before it takes a new URL
    or closes, and on the segments of the whole pool. *)
Definition weight (p : Phase) : nat :=
  match p with
  | Opening => 1
  | Fetching _ false => 3
  | Sleeping _ _ => 2
  | Fetching _ true => 1
  | Closed => 0
  end.

Definition fuel (s : Pool) : nat :=
  (4 * length (queue s) + sum_list (weight <$> workers s))%nat.

(** What a step can be, read off the phase of the worker. *)
Inductive step_kind (cfg : Config) (i : nat) (nav : Nav) (s s' : Pool) : Prop :=
| take_first :
    workers s !! i = Some Opening →
    s' = {| queue := (next (queue s)).2; results := results s;
            workers := <[i := (next (queue s)).1]> (workers s);
            attempts := attempts s |} →
    step_kind cfg i nav s s'
| back_off (u : string) :
    workers s !! i = Some (Fetching u false) →
    retry_wanted cfg (checkUrl u nav) = true →
    s' = {| queue := queue s; results := results s;
            workers := <[i := Sleeping u 1000]> (workers s);
            attempts := attempts s ++ [checkUrl u nav] |} →
    step_kind cfg i nav s s'
| wake_up (u : string) (ms : Z) :
    workers s !! i = Some (Sleeping u ms) →
    s' = {| queue := queue s; results := results s;
            workers := <[i := Fetching u true]> (workers s);
            attempts := attempts s |} →
    step_kind cfg i nav s s'
| report (u : string) (again : bool) :
    workers s !! i = Some (Fetching u again) →
    (again = false → retry_wanted cfg (checkUrl u nav) = false) →
    s' = {| queue := (next (queue s)).2; results := results s ++ [checkUrl u nav];
            workers := <[i := (next (queue s)).1]> (workers s);
            attempts := attempts s ++ [checkUrl u nav] |} →
    step_kind cfg i nav s s'.

(** Every target is in exactly one place: reported, held by a worker, or
    still queued; and the queue holds no falsy entry. *)
Definition accounted (urls : list string) (s : Pool) : Prop :=
  ∃ q, queue s = Some <$> q
       ∧ Forall (λ u, u ≠ EmptyString) q
       ∧ (url <$> results s) ++ held (workers s) ++ q ≡ₚ urls.

(** Each reported outcome is what the last attempt on its URL returned. *)
Definition final_attempts (s : Pool) : Prop :=
  ∀ r, r ∈ results s → last (filter (λ a, url a = url r) (attempts s)) = Some r.

(** Whether every character of a string passes a test. *)
Fixpoint every (P : ascii → bool) (s : string) : bool :=
  match s with
  | EmptyString => true
  | String c s' => P c && every P s'
  end.

(** Whether a worker is between the two attempts on [u]. *)
Definition retrying (u : string) (p : Phase) : bool :=
  match p with
  | Sleeping v _ => String.eqb v u
  | Fetching v true => String.eqb v u
  | _ => false
  end.

(** The truthy entries at the head of a list of targets, up to the first
    falsy one. *)
Fixpoint leading (q : list (option string)) : list string :=
  match q with
  | Some u :: q' => if truthy (Some u) then u :: leading q' else []
  | _ => []
  end.

(** The targets a single worker still has before it: the one in hand, then
    the leading truthy entries of the queue. *)
Definition ahead (p : Phase) (q : list (option string)) : list string :=
  match p with
  | Opening => leading q
  | Fetching u _ => u :: leading q
  | Sleeping u _ => u :: leading q
  | Closed => []
  end.

(** A URL that stands in the list of targets and is not empty. *)
Definition listed (urls : list (option string)) (u : string) : Prop :=
  Some u ∈ urls ∧ u ≠ EmptyString.

(** ** Sample inputs *)

(** A LinkedIn-style refusal: the server answers with status 999. *)
Definition linkedin : Result :=
  {| url := "https://www.linkedin.com/company/royalbit"; status := Some 999;
     statusText := Some "Request denied"; title := None; error := None;
     time := Some 120 |}.

(** An attempt that threw an error the program has no name for. *)
Definition nameless : Result :=
  {| url := "https://example.org/b"; status := None; statusText := None;
     title := None; error := Some "net::ERR_FAILED at https://example.org/b";
     time := Some 35 |}.

(** An answer the server gave: the page does not exist. *)
Definition missing_page : Result :=
  checkUrl "https://example.org/c"
    (Resolved (Some {| resp_status := 404; resp_statusText := "Not Found" |}) None 12).

(** A page of a host that does not resolve, and a page that loads and
    whose script context dies while it is read. *)
Definition unresolved_page : Page (list (string * string)) :=
  {| configure := Normal ();
     goto := λ u, Throw ("net::ERR_NAME_NOT_RESOLVED at " +:+ u);
     waitForSelector := Normal ();
     evaluate := λ _, Normal [];
     close := Normal () |}.

Definition destroyed_page : Page (list (string * string)) :=
  {| configure := Normal ();
     goto := λ _, Normal ();
     waitForSelector := Throw "Waiting for selector `header` failed";
     evaluate := λ _, Throw "Execution context was destroyed";
     close := Normal () |}.

(** A page whose target has gone: the navigation fails and so does the
    closing of the page. *)
Definition crashed_page : Page (list (string * string)) :=
  {| configure := Normal ();
     goto := λ _, Throw "Navigation failed because browser has disconnected!";
     waitForSelector := Normal ();
     evaluate := λ _, Throw "Protocol error: Connection closed.";
     close := Throw "Protocol error: Connection closed." |}.

(** A line feed, and a standard input that names one URL twice, with the
    full stop of a sentence left on it. *)
Definition LF : string := String "010" EmptyString.

Definition piped : Invocation :=
  {| argv := ["--stdin"];
     stdin := Normal ("https://example.org/a." +:+ LF +:+ "https://example.org/a.");
     existsSync := λ _, false;
     readFileSync := λ _, Throw "ENOENT: no such file or directory" |}.

(** A markdown file that cites one URL twice. *)
Definition cited : Invocation :=
  {| argv := ["REFERENCES.md"];
     stdin := Normal EmptyString;
     existsSync := λ f, String.eqb f "REFERENCES.md";
     readFileSync := λ f,
       if String.eqb f "REFERENCES.md"
       then Normal ("See (https://example.org/a), and https://example.org/b."
                    +:+ LF +:+ "Again: <https://example.org/a>.")
       else Throw "ENOENT: no such file or directory" |}.

(** Two tabs, two targets, and a schedule under which the first target
    loads and the host of the second does not resolve, twice. *)
Definition two_tabs : Config := with_concurrency CONFIG 2.

Definition ok_page : Nav :=
  Resolved (Some {| resp_status := 200; resp_statusText := "OK" |}) (Some "Example") 80.

Definition no_host : Nav :=
  Rejected "net::ERR_NAME_NOT_RESOLVED at https://example.org/b" 15.

Definition schedule : list (nat * Nav) :=
  [ (0%nat, ok_page); (1%nat, ok_page); (1%nat, no_host);
    (0%nat, ok_page); (1%nat, ok_page); (1%nat, no_host) ].

(** The navigation behind [nameless]: an error whose text names none of the
    four failures the program knows. *)
Definition odd_error : Nav := Rejected "net::ERR_FAILED at https://example.org/b" 35.

(** One tab at work on one target, first attempt. *)
Definition one_fetching : Pool :=
  {| queue := []; results := [];
     workers := [Fetching "https://example.org/b" false]; attempts := [] |}.

(** A command line that asks for 25 tabs. *)
Definition greedy : Invocation :=
  {| argv := ["REFERENCES.md"; "-c"; "25"]; stdin := Normal EmptyString;
     existsSync := λ _, true;
     readFileSync := λ _, Normal "https://example.org/a" |}.

(** The state in which [schedule] leaves the two tabs. *)
Definition schedule_end : Pool :=
  {| queue := [];
     results := [checkUrl "https://example.org/a" ok_page;
                 checkUrl "https://example.org/b" no_host];
     workers := [Closed; Closed];
     attempts := [checkUrl "https://example.org/b" no_host;
                  checkUrl "https://example.org/a" ok_page;
                  checkUrl "https://example.org/b" no_host] |}.

(** A schedule for the five tabs of the built-in configuration and two
    targets, the second of which loads on the second attempt. *)
Definition five_tabs_schedule : list (nat * Nav) :=
  [ (0%nat, ok_page); (1%nat, ok_page); (2%nat, ok_page); (3%nat, ok_page);
    (4%nat, ok_page); (1%nat, no_host); (0%nat, ok_page); (1%nat, ok_page);
    (1%nat, ok_page) ].

(** A world in which the references file is missing. *)
Definition no_references : World (list (string * string)) :=
  {| w_argv := ["--instagram"];
     references := Throw "ENOENT: no such file or directory, open '../REFERENCES.md'";
     launch := Normal ();
     web := λ _, {| newPage := Normal unresolved_page |};
     shutdown := Normal () |}.

(** * Properties *)

(** ** The stable sort *)

Section SortByKey.
Context {A : Type} (key : A → Z).

Local Abbreviation cmp := (λ a b : A, key a - key b).
Local Abbreviation le := (λ a b : A, key a ≤ key b).

Lemma insert_sorted_perm (x : A) (l : list A) :
  insert_sorted cmp x l ≡ₚ x :: l.
Proof.
  induction l as [|y l IH]; simpl; [done|].
  destruct (key x - key y <=? 0); [done|].
  rewrite IH. apply Permutation_swap.
Qed.

Lemma sort_perm (l : list A) : Js.sort cmp l ≡ₚ l.
Proof.
  induction l as [|x l IH]; simpl; [done|].
  rewrite insert_sorted_perm. by f_equiv.
Qed.

Lemma insert_sorted_sorted (x : A) (l : list A) :
  StronglySorted le l → StronglySorted le (insert_sorted cmp x l).
Proof.
  induction 1 as [|y l Hl IH Hy]; simpl.
  - repeat constructor.
  - destruct (Z.leb_spec (key x - key y) 0) as [Hxy|Hxy]; simpl in *.
    + constructor; [by constructor|].
      constructor; [lia|].
      eapply Forall_impl; [exact Hy|]. simpl. intros; lia.
    + constructor; [done|].
      rewrite insert_sorted_perm. constructor; [lia|done].
Qed.

Lemma sort_sorted (l : list A) : StronglySorted le (Js.sort cmp l).
Proof.
  induction l; simpl; [constructor|]. by apply insert_sorted_sorted.
Qed.

(** Stability: among the elements of one key the input order is kept. *)
Lemma insert_sorted_filter (k : Z) (x : A) (l : list A) :
  StronglySorted le l →
  filter (λ a, key a = k) (insert_sorted cmp x l)
  = filter (λ a, key a = k) (x :: l).
Proof.
  induction 1 as [|y l Hl IH Hy]; simpl; [done|].
  destruct (Z.leb_spec (key x - key y) 0) as [Hxy|Hxy]; [done|].
  simpl in *.
  rewrite !filter_cons, IH, filter_cons.
  destruct (decide (key y = k)), (decide (key x = k)); try done.
  lia.
Qed.

Lemma sort_stable (k : Z) (l : list A) :
  filter (λ a, key a = k) (Js.sort cmp l) = filter (λ a, key a = k) l.
Proof.
  induction l as [|x l IH]; simpl; [done|].
  rewrite insert_sorted_filter by apply sort_sorted.
  by rewrite !filter_cons, IH.
Qed.

Lemma sorted_lookup_le (l : list A) (i j : nat) (a b : A) :
  StronglySorted le l → l !! i = Some a → l !! j = Some b → (i < j)%nat →
  key a ≤ key b.
Proof.
  intros Hs. revert i j. induction Hs as [|y l Hl IH Hy]; intros i j Hi Hj Hij.
  - done.
  - destruct j as [|j]; [lia|]. destruct i as [|i]; simpl in *.
    + injection Hi as ->. rewrite Forall_forall in Hy.
      apply Hy. by eapply list_elem_of_lookup_2.
    + eapply IH; eauto. lia.
Qed.
End SortByKey.

(** ** The classifier *)

Lemma bucket_of_cases (st : Z) :
  (bucket_of st = Ok ↔ 200 ≤ st ≤ 299)
  ∧ (bucket_of st = Redirect ↔ 300 ≤ st ≤ 399)
  ∧ (bucket_of st = Blocked ↔ st = 403)
  ∧ (bucket_of st = ClientError ↔ 400 ≤ st ≤ 499 ∧ st ≠ 403)
  ∧ (bucket_of st = ServerError ↔ 500 ≤ st)
  ∧ (bucket_of st = Failed ↔ st < 200).
Proof.
  unfold bucket_of.
  repeat match goal with
         | |- context [?a <=? ?b] => destruct (Z.leb_spec a b)
         | |- context [?a <? ?b] => destruct (Z.ltb_spec a b)
         | |- context [?a =? ?b] => destruct (Z.eqb_spec a b)
         end; simpl; repeat split; intros; (discriminate || lia || done).
Qed.

Lemma num_or_zero (v : option Z) (n : Z) :
  n ≠ 0 → num_or v 0 = n ↔ v = Some n.
Proof.
  intros Hn. destruct v as [m|]; simpl.
  - destruct (Z.eqb_spec m 0) as [Hm|Hm]; split; intros; simplify_eq; done.
  - split; intros; simplify_eq.
Qed.

Lemma num_or_zero_range (v : option Z) (P : Z → Prop) :
  ¬ P 0 → P (num_or v 0) ↔ ∃ n, v = Some n ∧ P n.
Proof.
  intros H0. destruct v as [m|]; simpl.
  - destruct (Z.eqb_spec m 0) as [->|Hm]; split.
    + done.
    + intros (n & [= <-] & ?). done.
    + eauto.
    + by intros (n & [= <-] & ?).
  - split; [done|]. by intros (n & ? & ?).
Qed.

(** C1, as stated, fails: a status of 999 is above every range of the table,
    so the table sends it to the failed bucket, and the program counts it
    as a server error. *)
Lemma classify_999_not_failed :
  classify linkedin = ServerError
  ∧ Spec.bucket_table (status linkedin) = Failed
  ∧ classify linkedin ≠ Spec.bucket_table (status linkedin).
Proof. by vm_compute. Qed.

(** C1, amended: every outcome falls in exactly the bucket its status
    names: 200-299 ok, 300-399 redirect, 403 blocked, 400-499 other than 403
    client error, 500 and above (with no upper limit) server error, and a
    missing status, a zero status or any other status below 200 failed. *)
Theorem classify_table (r : Result) :
  (classify r = Ok ↔ ∃ n, status r = Some n ∧ 200 ≤ n ≤ 299)
  ∧ (classify r = Redirect ↔ ∃ n, status r = Some n ∧ 300 ≤ n ≤ 399)
  ∧ (classify r = Blocked ↔ status r = Some 403)
  ∧ (classify r = ClientError ↔ ∃ n, status r = Some n ∧ 400 ≤ n ≤ 499 ∧ n ≠ 403)
  ∧ (classify r = ServerError ↔ ∃ n, status r = Some n ∧ 500 ≤ n)
  ∧ (classify r = Failed ↔ status r = None ∨ ∃ n, status r = Some n ∧ n < 200).
Proof.
  unfold classify.
  destruct (bucket_of_cases (num_or (status r) 0)) as (H1 & H2 & H3 & H4 & H5 & H6).
  rewrite H1, H2, H3, H4, H5, H6. clear.
  split_and!.
  - apply (num_or_zero_range _ (λ n, 200 ≤ n ≤ 299)); lia.
  - apply (num_or_zero_range _ (λ n, 300 ≤ n ≤ 399)); lia.
  - apply num_or_zero; lia.
  - apply (num_or_zero_range _ (λ n, 400 ≤ n ≤ 499 ∧ n ≠ 403)); lia.
  - apply (num_or_zero_range _ (λ n, 500 ≤ n)); lia.
  - destruct (status r) as [n|]; simpl.
    + destruct (Z.eqb_spec n 0) as [Hn|Hn]; split.
      * intros _. right. exists n. split; [done|lia].
      * lia.
      * intros ?. right. by exists n.
      * intros [?|(m & [= <-] & ?)]; done.
    + split; [by left|lia].
Qed.

(** ** The counts of the report *)

Lemma count_total (b : Bucket) (s : Summary) : total (count b s) = total s.
Proof. by destruct b. Qed.

Lemma count_bucket (b b' : Bucket) (s : Summary) :
  bucket_count b' (count b s)
  = ((if decide (b = b') then 1 else 0) + bucket_count b' s)%nat.
Proof. by destruct b, b'. Qed.

Lemma histogram_sum_bump (m : gmap Z nat) (st : Z) :
  histogram_sum (<[st := (default 0 (m !! st) + 1)%nat]> m) = S (histogram_sum m).
Proof.
  unfold histogram_sum.
  destruct (m !! st) as [n|] eqn:Hst; simpl.
  - rewrite <-insert_delete_eq.
    rewrite map_fold_insert_L; [|intros; lia|apply lookup_delete_eq].
    rewrite (map_fold_delete_L _ _ st n m); [lia|intros; lia|done].
  - rewrite map_fold_insert_L; [lia|intros; lia|done].
Qed.

Lemma tally_fold (rs : list Result) (acc : Summary * gmap Z nat) :
  let out := fold_left tally rs acc in
  total out.1 = total acc.1
  ∧ (∀ b, bucket_count b out.1
          = (bucket_count b acc.1 + length (filter (λ r, classify r = b) rs))%nat)
  ∧ histogram_sum out.2 = (histogram_sum acc.2 + length rs)%nat
  ∧ (∀ st, default 0%nat (out.2 !! st)
           = (default 0 (acc.2 !! st)
              + length (filter (λ r, num_or (status r) 0 = st) rs))%nat).
Proof.
  revert acc. induction rs as [|r rs IH]; intros acc; simpl.
  - split_and!; intros; lia.
  - destruct (IH (tally acc r)) as (Ht & Hb & Hh & Hs). simpl in *.
    split_and!.
    + by rewrite Ht, count_total.
    + intros b. rewrite Hb, count_bucket, filter_cons. unfold classify.
      destruct (decide (bucket_of (num_or (status r) 0) = b)); simpl; lia.
    + rewrite Hh, histogram_sum_bump. lia.
    + intros st. rewrite Hs, filter_cons.
      destruct (decide (num_or (status r) 0 = st)) as [<-|Hne].
      * rewrite lookup_insert_eq. simpl. lia.
      * rewrite lookup_insert_ne by done. lia.
Qed.

Lemma length_by_bucket (rs : list Result) :
  (length (filter (λ r, classify r = Ok) rs)
   + length (filter (λ r, classify r = Redirect) rs)
   + length (filter (λ r, classify r = Blocked) rs)
   + length (filter (λ r, classify r = ClientError) rs)
   + length (filter (λ r, classify r = ServerError) rs)
   + length (filter (λ r, classify r = Failed) rs))%nat = length rs.
Proof.
  induction rs as [|r rs IH]; [done|].
  rewrite !filter_cons. simpl length. rewrite <-IH.
  destruct (classify r); repeat case_decide; try done; simpl; lia.
Qed.

(** C10: the summary counts every result exactly once.  [total] is the
    length of the results list; each of the six bucket keys holds the number
    of results of that bucket (zero when there is none), so the six counts
    add up to [total]; and the counts of [byStatus], which holds for each
    raw status (zero for none) the number of results with it, add up to
    [total] as well. *)
Theorem report_counts (now : string) (rs : list Result) :
  let rep := generateReport now rs in
  total (summary rep) = length rs
  ∧ (∀ b, bucket_count b (summary rep) = length (filter (λ r, classify r = b) rs))
  ∧ (ok (summary rep) + redirects (summary rep) + blocked (summary rep)
     + clientErrors (summary rep) + serverErrors (summary rep)
     + failed (summary rep))%nat = total (summary rep)
  ∧ (∀ st, default 0%nat (byStatus rep !! st)
           = length (filter (λ r, num_or (status r) 0 = st) rs))
  ∧ histogram_sum (byStatus rep) = total (summary rep).
Proof.
  unfold generateReport.
  set (init := {| total := length rs; ok := 0; redirects := 0; clientErrors := 0;
                  serverErrors := 0; blocked := 0; failed := 0 |}).
  destruct (tally_fold rs (init, ∅)) as (Ht & Hb & Hh & Hs).
  destruct (fold_left tally rs (init, ∅)) as [sm hist]. simpl in *.
  assert (Hb' : ∀ b, bucket_count b sm = length (filter (λ r, classify r = b) rs)).
  { intros b. rewrite Hb. by destruct b. }
  split_and!; [done|done| |..].
  - rewrite Ht, <-(length_by_bucket rs), <-!Hb'. done.
  - intros st. rewrite Hs, lookup_empty. done.
  - rewrite Hh, Ht. unfold histogram_sum. rewrite map_fold_empty. done.
Qed.

(** ** The order of the results *)

Lemma report_results_sort (now : string) (rs : list Result) :
  report_results (generateReport now rs) = Js.sort by_status rs.
Proof. unfold generateReport. by destruct (fold_left tally rs _). Qed.

(** C7, as stated, fails: an outcome without a status sorts as 999, so it
    ties with an outcome of status 999 and, the sort being stable, stays in
    front of it when it came first. *)
Lemma statusless_before_999 :
  let out := report_results (generateReport "2025-12-07T00:00:00.000Z"
                               [nameless; linkedin]) in
  out = [nameless; linkedin]
  ∧ status nameless = None ∧ status linkedin = Some 999
  ∧ ¬ (∀ i j a b, out !! i = Some a → out !! j = Some b →
         status a = None → is_Some (status b) → (j < i)%nat).
Proof.
  split_and!; [by vm_compute..|].
  intros H. specialize (H 0%nat 1%nat nameless linkedin).
  vm_compute in H. specialize (H eq_refl eq_refl eq_refl (ex_intro _ _ eq_refl)).
  inversion H.
Qed.

(** C7, amended: the results list of the report is the input list, stably
    sorted by ascending sort key, where the key of an outcome is its status,
    or 999 when the status is missing or zero.  So every outcome lacking a
    status is ordered after every outcome whose status is below 999. *)
Theorem report_sorted (now : string) (rs : list Result) :
  let out := report_results (generateReport now rs) in
  out ≡ₚ rs
  ∧ StronglySorted (λ a b, sort_key a ≤ sort_key b) out
  ∧ (∀ k, filter (λ r, sort_key r = k) out = filter (λ r, sort_key r = k) rs)
  ∧ (∀ i j a b n, out !! i = Some a → out !! j = Some b →
       num_or (status a) 0 = 0 → status b = Some n → n ≠ 0 → n < 999 →
       (j < i)%nat).
Proof.
  simpl. rewrite report_results_sort.
  change by_status with (λ a b, sort_key a - sort_key b).
  split_and!.
  - apply sort_perm.
  - apply sort_sorted.
  - intros k. apply sort_stable.
  - intros i j a b n Ha Hb Hsa Hsb Hn0 Hn.
    assert (Hka : sort_key a = 999).
    { unfold sort_key. destruct (status a) as [m|]; simpl in *; [|done].
      destruct (Z.eqb_spec m 0); [done|lia]. }
    assert (Hkb : sort_key b = n).
    { unfold sort_key. rewrite Hsb. simpl. destruct (Z.eqb_spec n 0); [done|lia]. }
    destruct (Nat.lt_trichotomy i j) as [Hij|[->|Hij]]; [| |done].
    2: { rewrite Ha in Hb. injection Hb as ->. unfold sort_key in *.
         rewrite Hsb in Hsa. simpl in Hsa. destruct (Z.eqb_spec n 0); lia. }
    pose proof (sorted_lookup_le sort_key _ i j a b (sort_sorted sort_key rs) Ha Hb Hij).
    lia.
Qed.

(** The theorem at a list where the outcome without a status comes first. *)
Lemma report_sorted_witness :
  let out := report_results (generateReport "2025-12-07T00:00:00.000Z"
                               [nameless; missing_page]) in
  out ≡ₚ [nameless; missing_page]
  ∧ ∃ i j, out !! i = Some nameless ∧ out !! j = Some missing_page ∧ (j < i)%nat.
Proof.
  destruct (report_sorted "2025-12-07T00:00:00.000Z" [nameless; missing_page])
    as (Hp & _ & _ & H).
  split; [exact Hp|].
  exists 1%nat, 0%nat. split; [reflexivity|]. split; [reflexivity|].
  apply (H 1%nat 0%nat nameless missing_page 404);
    [reflexivity|reflexivity|reflexivity|reflexivity|lia|lia].
Defined.

(** ** Extractor dispatch *)

(** C9: dispatch is a first match over the registry in priority order.  A
    URL containing instagram.com selects the instagram extractor; a URL
    that instagram did not claim and that contains statista.com selects the
    statista extractor; every other URL falls to the generic extractor, whose
    entry matches every URL. *)
Theorem getExtractor_first_match (url : string) :
  Spec.dispatch Spec.registry url = Some (getExtractor url)
  ∧ (includes url "instagram.com" = true → getExtractor url = instagram)
  ∧ (includes url "instagram.com" = false → includes url "statista.com" = true →
     getExtractor url = statista)
  ∧ (includes url "instagram.com" = false → includes url "statista.com" = false →
     getExtractor url = generic)
  ∧ (∃ p, last Spec.registry = Some (p, generic) ∧ ∀ u, p u = true).
Proof.
  unfold Spec.dispatch, Spec.registry, getExtractor. simpl.
  destruct (includes url "instagram.com") eqn:Hi;
    destruct (includes url "statista.com") eqn:Hs; simpl;
    split_and!; try done; by eexists.
Qed.

Lemma getExtractor_first_match_witness :
  getExtractor "https://www.instagram.com/royalbit/" = instagram
  ∧ getExtractor "https://www.statista.com/statistics/1234/market-size" = statista
  ∧ getExtractor "https://techcrunch.com/2025/01/02/report" = generic.
Proof.
  split; [|split].
  - apply (getExtractor_first_match "https://www.instagram.com/royalbit/").
    reflexivity.
  - apply (getExtractor_first_match
             "https://www.statista.com/statistics/1234/market-size"); reflexivity.
  - apply (getExtractor_first_match "https://techcrunch.com/2025/01/02/report");
      reflexivity.
Defined.

(** ** The guarded extraction *)

(** C8, as stated, fails: the strategy is guarded, the closing of the page
    in the [finally] block is not.  On a page whose target has gone, the
    navigation throws and so does [page.close()]; no record is returned,
    and the error of the closing reaches the caller. *)
Lemma extractData_close_throws :
  EXTRACTORS (getExtractor "https://www.statista.com/statistics/1") crashed_page
    "https://www.statista.com/statistics/1"
  = Throw "Navigation failed because browser has disconnected!"
  ∧ extractData "2025-12-07T00:00:00.000Z" {| newPage := Normal crashed_page |}
      "https://www.statista.com/statistics/1"
    = Throw "Protocol error: Connection closed."
  ∧ ¬ ∃ record,
        extractData "2025-12-07T00:00:00.000Z" {| newPage := Normal crashed_page |}
          "https://www.statista.com/statistics/1"
        = Normal record.
Proof.
  split; [reflexivity|]. split; [reflexivity|].
  intros (record & H). discriminate H.
Qed.

(** C8, amended: when the page opens, is configured and closes normally and
    the strategy chosen for the URL throws, at the navigation or while
    reading the page, [extractData] returns: its result is the record with
    the URL, the name of the strategy, [success] false and the message of
    the error.  Nothing is thrown to the caller.  The function is given the
    browser and the URL only, so no outcome of an earlier check is in its
    reach. *)
Theorem extractData_catches {Data : Type} (now : string) (browser : Browser Data)
    (page : Page Data) (url message : string) :
  newPage browser = Normal page →
  configure page = Normal () →
  close page = Normal () →
  EXTRACTORS (getExtractor url) page url = Throw message →
  extractData now browser url
  = Normal {| x_url := url; x_type := getExtractor url; x_data := None;
              x_success := Some false; x_error := Some message;
              x_timestamp := Some now |}.
Proof.
  intros Hnew Hcfg Hclose Hthrow. unfold extractData.
  rewrite Hnew. simpl. rewrite Hcfg. simpl.
  rewrite Hthrow. simpl. by rewrite Hclose.
Qed.

Lemma extractData_catches_witness :
  extractData "2025-12-07T00:00:00.000Z" {| newPage := Normal unresolved_page |}
    "https://www.statista.com/statistics/1"
  = Normal {| x_url := "https://www.statista.com/statistics/1"; x_type := statista;
              x_data := None; x_success := Some false;
              x_error := Some "net::ERR_NAME_NOT_RESOLVED at https://www.statista.com/statistics/1";
              x_timestamp := Some "2025-12-07T00:00:00.000Z" |}
  ∧ extractData "2025-12-07T00:00:00.000Z" {| newPage := Normal destroyed_page |}
      "https://www.instagram.com/royalbit/"
    = Normal {| x_url := "https://www.instagram.com/royalbit/"; x_type := instagram;
                x_data := None; x_success := Some false;
                x_error := Some "Execution context was destroyed";
                x_timestamp := Some "2025-12-07T00:00:00.000Z" |}.
Proof.
  split.
  - apply (extractData_catches _ _ unresolved_page); reflexivity.
  - apply (extractData_catches _ _ destroyed_page); reflexivity.
Defined.

(** ** The frontier *)

Lemma set_spread_fold (xs seen : list string) :
  let out := fold_left (λ (seen : list string) x,
                          if bool_decide (x ∈ seen) then seen else (seen ++ [x])%list)
                       xs seen in
  (NoDup seen → NoDup out) ∧ (∀ x, x ∈ out ↔ x ∈ seen ∨ x ∈ xs).
Proof.
  revert seen. induction xs as [|x xs IH]; intros seen; simpl.
  - split; [done|]. intros x. rewrite elem_of_nil. tauto.
  - case_bool_decide as Hx.
    + destruct (IH seen) as [Hnd Hel]. split; [done|].
      intros y. rewrite Hel, elem_of_cons.
      split; [tauto|]. intros [?|[->|?]]; tauto.
    + destruct (IH (seen ++ [x])%list) as [Hnd Hel]. split.
      * intros Hs. apply Hnd. apply NoDup_app. split_and!; [done| |apply NoDup_singleton].
        intros y Hy ->%list_elem_of_singleton. done.
      * intros y. rewrite Hel, elem_of_app, list_elem_of_singleton, elem_of_cons. tauto.
Qed.

Lemma set_spread_NoDup (xs : list string) : NoDup (set_spread xs).
Proof. apply set_spread_fold. constructor. Qed.

Lemma set_spread_elem (xs : list string) (x : string) : x ∈ set_spread xs ↔ x ∈ xs.
Proof.
  unfold set_spread. rewrite (proj2 (set_spread_fold xs [])), elem_of_nil. tauto.
Qed.

Lemma clean_empty (s : string) : clean s = EmptyString ↔ all_punct s = true.
Proof.
  destruct s as [|c s]; simpl; [done|].
  destruct (punct c && all_punct s); split; done.
Qed.

Lemma clean_ends (s : string) : ends_with_punct (clean s) = false.
Proof.
  induction s as [|c s IH]; [done|].
  cbn [clean]. destruct (all_punct (String c s)) eqn:Hall; [done|].
  cbn [ends_with_punct]. destruct (clean s) eqn:Hs; [|done].
  apply clean_empty in Hs. simpl in Hall. rewrite Hs, andb_true_r in Hall. done.
Qed.

Lemma clean_fixed (s : string) : ends_with_punct s = false → clean s = s.
Proof.
  induction s as [|c s IH]; [done|].
  cbn [clean ends_with_punct]. destruct s as [|d s].
  - simpl. by intros ->.
  - intros Hs. specialize (IH Hs). rewrite IH.
    assert (all_punct (String d s) = false) as Hd.
    { destruct (all_punct (String d s)) eqn:Hall; [|done].
      apply clean_empty in Hall. by rewrite IH in Hall. }
    cbn [all_punct] in *. rewrite Hd, andb_false_r. done.
Qed.

Lemma extractUrls_clean (content u : string) :
  u ∈ extractUrls content → ends_with_punct u = false ∧ clean u = u.
Proof.
  unfold extractUrls. rewrite set_spread_elem, list_elem_of_fmap.
  intros (m & -> & _). split; [apply clean_ends|].
  apply clean_fixed, clean_ends.
Qed.

(** C5, as stated, fails: the lines of standard input reach the workers as
    they were typed, the duplicate and the trailing full stop included. *)
Lemma piped_frontier_keeps_duplicates :
  frontier piped = Normal [Some "https://example.org/a."; Some "https://example.org/a."]
  ∧ ¬ NoDup [Some "https://example.org/a."; Some "https://example.org/a."]
  ∧ ends_with_punct "https://example.org/a." = true.
Proof.
  split_and!; [by vm_compute| |by vm_compute].
  intros H. apply NoDup_cons in H as [Hin _]. apply Hin. by left.
Qed.

(** C5, amended: the list handed to the workers comes from one of three
    sources.  Scanned from a markdown file, it is the URLs of [extractUrls]:
    each has its trailing commas, full stops and closing parentheses
    trimmed, and no URL occurs twice, the duplicates being dropped once, on
    construction, by equality of the trimmed strings.  Given by [--url], it
    is that one argument as typed; read from standard input, it is the lines
    that start with http after trimming, as typed and in order, neither
    trimmed of punctuation nor deduplicated. *)
Theorem frontier_sources (inv : Invocation) (urls : list (option string)) :
  frontier inv = Normal urls →
  ("--url" ∈ argv inv
   ∧ urls = [at_index (argv inv) (indexOf "--url" (argv inv) + 1)])
  ∨ (("--url" ∉ argv inv) ∧ "--stdin" ∈ argv inv
     ∧ ∃ input, stdin inv = Normal input ∧ urls = Some <$> stdin_urls input)
  ∨ (("--url" ∉ argv inv) ∧ ("--stdin" ∉ argv inv)
     ∧ ∃ a content, head (argv inv) = Some a
       ∧ existsSync inv a = true ∧ readFileSync inv a = Normal content
       ∧ urls = Some <$> extractUrls content
       ∧ NoDup urls
       ∧ Forall (λ v, ∃ u, v = Some u ∧ ends_with_punct u = false ∧ clean u = u) urls).
Proof.
  unfold frontier. intros H.
  case_bool_decide as Hurl.
  { left. simpl in H. by injection H as <-. }
  right. case_bool_decide as Hstdin.
  { left. destruct (stdin inv) as [input| |]; [|done..].
    simpl in H. destruct (Some <$> _) eqn:E in H; [done|].
    injection H as <-. split_and!; [done..|]. exists input. by rewrite <-E. }
  right. split_and!; [done..|].
  destruct (argv inv) as [|a rest]; [done|].
  destruct (existsSync inv a) eqn:Hex; [|done].
  destruct (readFileSync inv a) as [content| |] eqn:Hfile; [|done..].
  simpl in H. destruct (Some <$> extractUrls content) eqn:E in H; [done|].
  injection H as <-. rewrite <-E. clear E.
  exists a, content. split_and!; try done.
  - apply (NoDup_fmap_2 Some), set_spread_NoDup.
  - apply Forall_fmap, Forall_forall. intros u Hu. exists u.
    split; [done|]. by apply (extractUrls_clean content).
Qed.

Lemma frontier_sources_witness :
  frontier cited = Normal [Some "https://example.org/a"; Some "https://example.org/b"]
  ∧ NoDup [Some "https://example.org/a"; Some "https://example.org/b"].
Proof.
  assert (H : frontier cited
              = Normal [Some "https://example.org/a"; Some "https://example.org/b"])
    by reflexivity.
  split; [exact H|].
  destruct (frontier_sources cited _ H) as [[Hu _]|[(_ & Hs & _)|(_ & _ & Hf)]].
  - exfalso. apply list_elem_of_singleton in Hu. discriminate Hu.
  - exfalso. apply list_elem_of_singleton in Hs. discriminate Hs.
  - destruct Hf as (a & content & _ & _ & _ & _ & Hnd & _). exact Hnd.
Defined.

(** ** The worker pool *)

Lemma url_checkUrl (u : string) (nav : Nav) : url (checkUrl u nav) = u.
Proof.
  destruct nav as [resp t ms|message ms]; simpl; [done|].
  repeat match goal with |- context [includes ?a ?b] => destruct (includes a b) end;
    done.
Qed.

(** Replacing the phase of worker [i] touches one place of the list. *)
Lemma workers_split (ws : list Phase) (i : nat) (old : Phase) :
  ws !! i = Some old →
  ∃ pre post, ws = pre ++ old :: post ∧ ∀ ph, <[i := ph]> ws = pre ++ ph :: post.
Proof.
  intros Hi. exists (take i ws), (drop (S i) ws). split.
  - by rewrite take_drop_middle.
  - intros ph. apply insert_take_drop. by eapply lookup_lt_Some.
Qed.

Lemma next_truthy (q : list string) :
  Forall (λ u, u ≠ EmptyString) q →
  next (Some <$> q)
  = match q with
    | [] => (Closed, [])
    | u :: q' => (Fetching u false, Some <$> q')
    end.
Proof.
  destruct q as [|u q]; [done|]. intros Hq. apply Forall_cons in Hq as [Hu _].
  simpl. destruct (String.eqb_spec u EmptyString); done.
Qed.

Lemma step_inv (cfg : Config) (i : nat) (nav : Nav) (s s' : Pool) :
  step cfg i nav s = Some s' → step_kind cfg i nav s s'.
Proof.
  unfold step. destruct (workers s !! i) as [[|u [|]|u ms|]|] eqn:Hi; try done.
  - destruct (next (queue s)) as [ph q] eqn:Hn. intros [= <-].
    apply take_first; [done|]. by rewrite Hn.
  - destruct (next (queue s)) as [ph q] eqn:Hn. intros [= <-].
    eapply report; [done|done|]. by rewrite Hn.
  - destruct (retry_wanted cfg (checkUrl u nav)) eqn:Hr.
    + intros [= <-]. by eapply back_off.
    + destruct (next (queue s)) as [ph q] eqn:Hn. intros [= <-].
      eapply report; [done|done|]. by rewrite Hn.
  - intros [= <-]. by eapply wake_up.
Qed.

(** A worker that has not left the loop can always run its next segment. *)
Lemma step_progress (cfg : Config) (s : Pool) :
  completed s = false → ∃ i, ∀ nav, is_Some (step cfg i nav s).
Proof.
  unfold completed. intros H.
  assert (∃ i p, workers s !! i = Some p ∧ is_closed p = false) as (i & p & Hi & Hp).
  { induction (workers s) as [|p ws IH]; [done|]. simpl in H.
    destruct (is_closed p) eqn:Hp.
    - destruct (IH H) as (i & q & ? & ?). by exists (S i), q.
    - by exists 0%nat, p. }
  exists i. intros nav. unfold step. rewrite Hi.
  destruct p as [|u [|]|u ms|]; try done.
  - destruct (next (queue s)); eauto.
  - destruct (next (queue s)); eauto.
  - destruct (retry_wanted cfg (checkUrl u nav)); [eauto|].
    destruct (next (queue s)); eauto.
Qed.

(** *** Every run ends *)

Lemma next_fuel (q : list (option string)) :
  (4 * length (next q).2 + weight (next q).1 ≤ 4 * length q)%nat.
Proof.
  destruct q as [|[u|] q]; simpl; [lia| |lia].
  destruct (negb (String.eqb u EmptyString)); simpl; lia.
Qed.

Lemma weight_split (pre post : list Phase) (p : Phase) :
  sum_list (weight <$> pre ++ p :: post)
  = (sum_list (weight <$> pre) + weight p + sum_list (weight <$> post))%nat.
Proof. induction pre as [|q pre IH]; csimpl; lia. Qed.

Lemma step_fuel (cfg : Config) (i : nat) (nav : Nav) (s s' : Pool) :
  step cfg i nav s = Some s' → (fuel s' < fuel s)%nat.
Proof.
  intros Hstep. apply step_inv in Hstep.
  destruct Hstep as [Hi ->|u Hi _ ->|u ms Hi ->|u again Hi _ ->];
    unfold fuel; simpl;
    destruct (workers_split _ _ _ Hi) as (pre & post & Hw & ->);
    rewrite Hw, !weight_split; simpl.
  - pose proof (next_fuel (queue s)). lia.
  - lia.
  - lia.
  - pose proof (next_fuel (queue s)). destruct again; simpl; lia.
Qed.

Lemma run_fuel (cfg : Config) (events : list (nat * Nav)) (s s' : Pool) :
  run cfg events s = Some s' → (length events + fuel s' ≤ fuel s)%nat.
Proof.
  revert s. induction events as [|[i nav] events IH]; intros s; simpl.
  - intros [= ->]. lia.
  - destruct (step cfg i nav s) as [s1|] eqn:Hs; [|done].
    intros H. apply IH in H. apply step_fuel in Hs. lia.
Qed.

Lemma fuel_start (cfg : Config) (urls : list (option string)) :
  fuel (start cfg urls) = (4 * length urls + concurrency cfg)%nat.
Proof.
  unfold fuel, start. simpl. rewrite fmap_replicate. simpl.
  induction (concurrency cfg) as [|n IH]; simpl; lia.
Qed.

Lemma run_app (cfg : Config) (e1 e2 : list (nat * Nav)) (s : Pool) :
  run cfg (e1 ++ e2) s = run cfg e1 s ≫= run cfg e2.
Proof.
  revert s. induction e1 as [|[i nav] e1 IH]; intros s; simpl; [done|].
  destruct (step cfg i nav s); simpl; [apply IH|done].
Qed.

(** From any state the workers can be run to their end. *)
Lemma run_to_end (cfg : Config) (answer : Nav) (s : Pool) :
  ∃ events s', run cfg events s = Some s' ∧ completed s' = true.
Proof.
  remember (fuel s) as n eqn:Hn. revert s Hn.
  induction n as [n IH] using lt_wf_ind. intros s ->.
  destruct (completed s) eqn:Hc.
  - by exists [], s.
  - destruct (step_progress cfg s Hc) as (i & Hi).
    destruct (Hi answer) as [s1 Hs1].
    destruct (IH (fuel s1) (step_fuel _ _ _ _ _ Hs1) s1 eq_refl) as (events & s' & Hr & Hd).
    exists ((i, answer) :: events), s'. simpl. by rewrite Hs1.
Qed.

(** *** No target is lost or reported twice *)

Lemma held_split (pre post : list Phase) (p : Phase) :
  held (pre ++ p :: post) = held pre ++ holding p ++ held post.
Proof. unfold held. by rewrite fmap_app, concat_app. Qed.

Lemma step_accounted (urls : list string) (cfg : Config) (i : nat) (nav : Nav)
    (s s' : Pool) :
  step cfg i nav s = Some s' → accounted urls s → accounted urls s'.
Proof.
  intros Hstep (q & Hq & Hne & Hperm). apply step_inv in Hstep.
  destruct Hstep as [Hi ->|u Hi _ ->|u ms Hi ->|u again Hi _ ->];
    unfold accounted; simpl;
    destruct (workers_split _ _ _ Hi) as (pre & post & Hw & ->);
    rewrite Hw, held_split in Hperm; rewrite ?held_split; simpl in *.
  - rewrite Hq, (next_truthy q Hne). destruct q as [|u q]; simpl.
    + by exists [].
    + exists q. apply Forall_cons in Hne as [_ Hne]. split_and!; [done..|].
      rewrite <-Hperm. solve_Permutation.
  - by exists q.
  - by exists q.
  - rewrite Hq, (next_truthy q Hne), fmap_app. simpl. rewrite url_checkUrl.
    destruct q as [|u' q]; simpl.
    + exists []. split_and!; [done..|]. rewrite <-Hperm. solve_Permutation.
    + exists q. apply Forall_cons in Hne as [_ Hne]. split_and!; [done..|].
      rewrite <-Hperm. solve_Permutation.
Qed.

Lemma filter_last_other (l : list Result) (a r : Result) :
  url a ≠ url r →
  last (filter (λ x, url x = url r) (l ++ [a])) = last (filter (λ x, url x = url r) l).
Proof.
  intros Hne. rewrite filter_app, filter_cons, decide_False by done.
  by rewrite filter_nil, app_nil_r.
Qed.

Lemma step_final_attempts (urls : list string) (cfg : Config) (i : nat) (nav : Nav)
    (s s' : Pool) :
  NoDup urls → accounted urls s →
  step cfg i nav s = Some s' → final_attempts s → final_attempts s'.
Proof.
  intros Hnd (q & Hq & Hne & Hperm) Hstep Hfin. apply step_inv in Hstep.
  rewrite <-Hperm in Hnd.
  assert (Hfresh : ∀ u p r, workers s !! i = Some p → u ∈ holding p →
                            r ∈ results s → u ≠ url r).
  { intros u p r Hi Hu Hr ->.
    destruct (workers_split _ _ _ Hi) as (pre & post & Hw & _).
    rewrite Hw, held_split in Hnd. apply NoDup_app in Hnd as (_ & Hdis & _).
    apply (Hdis (url r)); [by apply list_elem_of_fmap_2|].
    rewrite !elem_of_app. auto. }
  destruct Hstep as [Hi ->|u Hi _ ->|u ms Hi ->|u again Hi _ ->];
    unfold final_attempts; simpl; [done| |done|].
  - intros r Hr. rewrite filter_last_other; [by apply Hfin|].
    rewrite url_checkUrl. eapply Hfresh; [done| |done]. by left.
  - intros r [Hr| ->%list_elem_of_singleton]%elem_of_app.
    + rewrite filter_last_other; [by apply Hfin|].
      rewrite url_checkUrl. eapply Hfresh; [done| |done]. by left.
    + rewrite filter_app, filter_cons, decide_True by done.
      by rewrite filter_nil, last_snoc.
Qed.

Lemma run_invariant (urls : list string) (cfg : Config) (events : list (nat * Nav))
    (s s' : Pool) :
  NoDup urls → run cfg events s = Some s' →
  accounted urls s → final_attempts s →
  accounted urls s' ∧ final_attempts s'.
Proof.
  intros Hnd. revert s. induction events as [|[i nav] events IH]; intros s; simpl.
  - by intros [= ->].
  - destruct (step cfg i nav s) as [s1|] eqn:Hs; [|done].
    intros Hrun Ha Hf. apply (IH s1 Hrun).
    + by eapply step_accounted.
    + by eapply step_final_attempts.
Qed.

Lemma held_replicate_opening (n : nat) : held (replicate n Opening) = [].
Proof. induction n; [done|]. unfold held in *. simpl. done. Qed.

Lemma start_accounted (cfg : Config) (urls : list string) :
  Forall (λ u, u ≠ EmptyString) urls → accounted urls (start cfg (Some <$> urls)).
Proof.
  intros Hne. exists urls. split_and!; [done..|]. simpl.
  by rewrite held_replicate_opening.
Qed.

Lemma completed_held (ws : list Phase) : forallb is_closed ws = true → held ws = [].
Proof.
  induction ws as [|p ws IH]; [done|]. simpl.
  intros [Hp Hws]%andb_true_iff. destruct p; try done.
  unfold held in *. simpl. by apply IH.
Qed.

(** A worker closes only on an empty queue, and the queue never grows. *)
Lemma step_drained (urls : list string) (cfg : Config) (i : nat) (nav : Nav)
    (s s' : Pool) :
  accounted urls s → step cfg i nav s = Some s' →
  (Closed ∈ workers s → queue s = []) → Closed ∈ workers s' → queue s' = [].
Proof.
  intros (q & Hq & Hne & _) Hstep Hdr. apply step_inv in Hstep.
  assert (Hold : ∀ pre post old ph, workers s = pre ++ old :: post → ph ≠ Closed →
                   Closed ∈ pre ++ ph :: post → queue s = []).
  { intros pre post old ph Hw Hph Hin. apply Hdr. rewrite Hw.
    rewrite elem_of_app, elem_of_cons in *. destruct Hin as [?|[?|?]]; auto. done. }
  destruct Hstep as [Hi ->|u Hi _ ->|u ms Hi ->|u again Hi _ ->]; simpl;
    destruct (workers_split _ _ _ Hi) as (pre & post & Hw & ->).
  - rewrite Hq, (next_truthy q Hne). destruct q as [|u q]; [done|].
    simpl. intros Hin. apply (Hold _ _ _ _ Hw) in Hin; [|done].
    by rewrite Hin in Hq.
  - by apply Hold with (old := Fetching u false).
  - by apply Hold with (old := Sleeping u ms).
  - rewrite Hq, (next_truthy q Hne). destruct q as [|u' q]; [done|].
    simpl. intros Hin. apply (Hold _ _ _ _ Hw) in Hin; [|done].
    by rewrite Hin in Hq.
Qed.

Lemma step_workers_length (cfg : Config) (i : nat) (nav : Nav) (s s' : Pool) :
  step cfg i nav s = Some s' → length (workers s') = length (workers s).
Proof.
  intros Hstep. apply step_inv in Hstep.
  destruct Hstep as [Hi ->|u Hi _ ->|u ms Hi ->|u again Hi _ ->]; simpl;
    apply length_insert.
Qed.

Lemma run_workers_length (cfg : Config) (events : list (nat * Nav)) (s s' : Pool) :
  run cfg events s = Some s' → length (workers s') = length (workers s).
Proof.
  revert s. induction events as [|[i nav] events IH]; intros s; simpl.
  - by intros [= ->].
  - destruct (step cfg i nav s) as [s1|] eqn:Hs; [|done].
    intros H. rewrite (IH _ H). by eapply step_workers_length.
Qed.

Lemma run_drained (urls : list string) (cfg : Config) (events : list (nat * Nav))
    (s s' : Pool) :
  run cfg events s = Some s' → accounted urls s →
  (Closed ∈ workers s → queue s = []) → Closed ∈ workers s' → queue s' = [].
Proof.
  revert s. induction events as [|[i nav] events IH]; intros s; simpl.
  - by intros [= ->].
  - destruct (step cfg i nav s) as [s1|] eqn:Hs; [|done].
    intros Hrun Ha Hdr. apply (IH s1 Hrun).
    + by eapply step_accounted.
    + by eapply step_drained.
Qed.

Lemma completed_closed (ws : list Phase) :
  ws ≠ [] → forallb is_closed ws = true → Closed ∈ ws.
Proof.
  destruct ws as [|p ws]; [done|]. simpl. intros _ [Hp _]%andb_true_iff.
  destruct p; try done. by left.
Qed.

(** What a run that has ended returns. *)
Lemma run_completed (cfg : Config) (urls : list string) (events : list (nat * Nav))
    (s : Pool) :
  NoDup urls → Forall (λ u, u ≠ EmptyString) urls → (0 < concurrency cfg)%nat →
  run cfg events (start cfg (Some <$> urls)) = Some s → completed s = true →
  url <$> results s ≡ₚ urls ∧ final_attempts s.
Proof.
  intros Hnd Hne Hp Hrun Hc.
  destruct (run_invariant urls cfg events _ s Hnd Hrun) as [Ha Hf].
  { by apply start_accounted. }
  { intros r Hr. simpl in Hr. by apply elem_of_nil in Hr. }
  split; [|done].
  assert (Hq : queue s = []).
  { eapply run_drained; [done|by apply start_accounted| |].
    - simpl. intros Hin. by apply elem_of_replicate_inv in Hin.
    - apply completed_closed; [|done].
      apply run_workers_length in Hrun. simpl in Hrun.
      rewrite length_replicate in Hrun. intros Hw. rewrite Hw in Hrun. simpl in Hrun. lia. }
  destruct Ha as (q & Hq' & _ & Hperm).
  rewrite Hq in Hq'. symmetry in Hq'. apply fmap_nil_inv in Hq' as ->.
  rewrite (completed_held _ Hc), !app_nil_r in Hperm. done.
Qed.

(** C3: for a non-empty list of distinct, non-empty target URLs and a pool
    of at least one worker, every schedule of the workers is finite and can
    be run to the end, and the array [processUrls] then returns has exactly
    one outcome per target: its length is the length of the target list, its
    URLs are the targets, and each outcome is the one the last attempt on
    its URL returned. *)
Theorem processUrls_one_outcome_per_target (cfg : Config) (urls : list string) :
  urls ≠ [] → NoDup urls → Forall (λ u, u ≠ EmptyString) urls →
  (0 < concurrency cfg)%nat →
  (∀ events s, run cfg events (start cfg (Some <$> urls)) = Some s →
     (length events ≤ 4 * length urls + concurrency cfg)%nat
     ∧ ∃ more rs, processUrls cfg (Some <$> urls) (events ++ more) = Some rs)
  ∧ (∀ events rs, processUrls cfg (Some <$> urls) events = Some rs →
       length rs = length urls
       ∧ url <$> rs ≡ₚ urls
       ∧ ∃ s, run cfg events (start cfg (Some <$> urls)) = Some s
              ∧ results s = rs
              ∧ ∀ r, r ∈ rs →
                  last (filter (λ a, url a = url r) (attempts s)) = Some r).
Proof.
  intros _ Hnd Hne Hp. split.
  - intros events s Hrun. split.
    + apply run_fuel in Hrun. rewrite fuel_start, length_fmap in Hrun. lia.
    + destruct (run_to_end cfg (Rejected EmptyString 0) s) as (more & s' & Hmore & Hc).
      exists more, (results s'). unfold processUrls.
      rewrite run_app, Hrun. simpl. by rewrite Hmore, Hc.
  - intros events rs. unfold processUrls.
    destruct (run cfg events (start cfg (Some <$> urls))) as [s|] eqn:Hrun; [|done].
    destruct (completed s) eqn:Hc; [|done]. intros [= <-].
    destruct (run_completed cfg urls events s Hnd Hne Hp Hrun Hc) as [Hperm Hf].
    split_and!; [|done|by exists s].
    by rewrite <-(length_fmap url), Hperm.
Qed.

Lemma processUrls_one_outcome_per_target_witness :
  ∃ rs, processUrls two_tabs [Some "https://example.org/a"; Some "https://example.org/b"]
          schedule = Some rs
        ∧ length rs = 2%nat.
Proof.
  eexists. split; [reflexivity|].
  apply (processUrls_one_outcome_per_target two_tabs
           ["https://example.org/a"; "https://example.org/b"]) with (events := schedule).
  - discriminate.
  - apply NoDup_cons. split; [|apply NoDup_singleton].
    intros Hin. apply list_elem_of_singleton in Hin. discriminate Hin.
  - repeat constructor; discriminate.
  - simpl. lia.
  - reflexivity.
Defined.

(** *** The bound on the navigations in flight *)

Lemma in_flight_bound (s : Pool) : (in_flight s ≤ length (workers s))%nat.
Proof. apply length_filter. Qed.

Lemma getArg_truthy (args flags : list string) (a : string) :
  getArg args flags = Some a → truthy (Some a) = true.
Proof.
  induction flags as [|flag flags IH]; simpl; [done|].
  destruct (negb (indexOf flag args =? -1)); simpl; [|done].
  destruct (truthy (at_index args (indexOf flag args + 1))) eqn:Ht; [|done].
  intros Ha. by rewrite Ha in Ht.
Qed.

Lemma parse_concurrency_range (args : list string) (cfg : Config) :
  parse_concurrency CONFIG args = Normal cfg → (1 ≤ concurrency cfg ≤ 20)%nat.
Proof.
  unfold parse_concurrency.
  destruct (getArg args ["-c"; "--concurrency"]) as [a|] eqn:Ha.
  - rewrite (getArg_truthy _ _ _ Ha).
    destruct (parseInt a) as [n|]; [|done].
    destruct (Z.ltb_spec 0 n); [|done]. destruct (Z.leb_spec n 20); [|done].
    intros [= <-]. simpl. lia.
  - intros [= <-]. simpl. lia.
Qed.

(** C6: a value of the concurrency option that does not read as a number
    from 1 to 20 ends the invocation with exit status 1 before anything is
    fetched; the pool size a run starts with is therefore within 1 to 20;
    and at every instant of a run the navigations in flight are at most as
    many as the pool size. *)
Theorem concurrency_bound :
  (∀ inv a, getArg (argv inv) ["-c"; "--concurrency"] = Some a →
     (∀ n, parseInt a = Some n → n < 1 ∨ 20 < n) →
     prepare inv = Exit 1 concurrency_error)
  ∧ (∀ inv cfg urls, prepare inv = Normal (cfg, urls) →
       (1 ≤ concurrency cfg ≤ 20)%nat)
  ∧ (∀ cfg urls events s, run cfg events (start cfg urls) = Some s →
       (in_flight s ≤ concurrency cfg)%nat).
Proof.
  split_and!.
  - intros inv a Ha Hout. unfold prepare, parse_concurrency.
    rewrite Ha, (getArg_truthy _ _ _ Ha).
    destruct (parseInt a) as [n|]; [|done].
    destruct (Hout n eq_refl).
    + destruct (Z.ltb_spec 0 n); [lia|done].
    + destruct (Z.ltb_spec 0 n); [|done]. destruct (Z.leb_spec n 20); [lia|done].
  - intros inv cfg urls. unfold prepare.
    destruct (parse_concurrency CONFIG (argv inv)) as [cfg'| |] eqn:Hp; [|done..].
    simpl. destruct (frontier_c inv); [|done..]. simpl. intros [= <- _].
    by eapply parse_concurrency_range.
  - intros cfg urls events s Hrun.
    pose proof (in_flight_bound s) as Hb.
    apply run_workers_length in Hrun. simpl in Hrun.
    rewrite length_replicate in Hrun. lia.
Qed.

Lemma concurrency_bound_witness :
  prepare greedy = Exit 1 concurrency_error
  ∧ ∃ s, run two_tabs schedule
           (start two_tabs [Some "https://example.org/a"; Some "https://example.org/b"])
         = Some s ∧ (in_flight s ≤ 2)%nat.
Proof.
  destruct concurrency_bound as (Hreject & _ & Hflight).
  split.
  - apply (Hreject greedy "25"); [reflexivity|].
    intros n Hn. vm_compute in Hn. injection Hn as <-. right. lia.
  - eexists. split; [reflexivity|].
    apply (Hflight two_tabs
             [Some "https://example.org/a"; Some "https://example.org/b"] schedule).
    reflexivity.
Defined.

(** *** The retry *)

Lemma classify_zero (r : Result) : status r = Some 0 → classify r = Failed.
Proof. unfold classify. by intros ->. Qed.

(** An error text that names none of the four known failures leaves the
    status at [null], and no setting of [retries] has it retried. *)
Lemma unmatched_error_status (cfg : Config) (u message : string) (ms : Z) :
  includes message "net::ERR_NAME_NOT_RESOLVED" = false →
  includes message "net::ERR_CONNECTION_REFUSED" = false →
  includes message "net::ERR_CONNECTION_TIMED_OUT" = false →
  includes message "Navigation timeout" = false →
  status (checkUrl u (Rejected message ms)) = None
  ∧ retry_wanted cfg (checkUrl u (Rejected message ms)) = false
  ∧ classify (checkUrl u (Rejected message ms)) = Failed.
Proof.
  intros H1 H2 H3 H4. unfold retry_wanted, classify. simpl.
  by rewrite H1, H2, H3, H4.
Qed.

(** C2 fails on the program: an error whose text names none of the four
    known failures leaves [status] at [null], the guard of the retry asks
    for a status identical to zero, and the outcome is reported after one
    attempt, with no back-off.  The same worker does back off, for 1000 ms,
    when the host does not resolve. *)
Lemma nameless_error_not_retried :
  checkUrl "https://example.org/b" odd_error = nameless
  ∧ classify nameless = Failed
  ∧ retry_wanted CONFIG nameless = false
  ∧ step CONFIG 0 odd_error one_fetching
    = Some {| queue := []; results := [nameless]; workers := [Closed];
              attempts := [nameless] |}
  ∧ processUrls (with_concurrency CONFIG 1) [Some "https://example.org/b"]
      [(0%nat, odd_error); (0%nat, odd_error)] = Some [nameless]
  ∧ workers <$> step CONFIG 0 no_host one_fetching
    = Some [Sleeping "https://example.org/b" 1000].
Proof. by vm_compute. Qed.

(** C4, as stated, fails: the outcome of a target whose two attempts both
    failed has six properties, and [retryCount] is not one of them. *)
Lemma exhausted_outcome_without_retryCount :
  processUrls two_tabs [Some "https://example.org/a"; Some "https://example.org/b"]
    schedule
  = Some [checkUrl "https://example.org/a" ok_page;
          checkUrl "https://example.org/b" no_host]
  ∧ classify (checkUrl "https://example.org/b" no_host) = Failed
  ∧ property "retryCount" (checkUrl "https://example.org/b" no_host) = None
  ∧ property "retryCount" (checkUrl "https://example.org/b" no_host)
    ≠ Some (VNum (retries two_tabs)).
Proof. by vm_compute. Qed.

(** C4, amended: an outcome record has the properties url, status,
    statusText, title, error and time, and no retry count.  With a positive
    [retries] setting, a target whose first attempt ends with status 0 is
    attempted once more after a pause of 1000 ms, whatever the other workers
    do meanwhile; the outcome of that second attempt is the one reported,
    with no further attempt, and when it has status 0 too it falls in the
    failed bucket. *)
Theorem retry_exhaustion (cfg : Config) (i : nat) (u : string) :
  0 < retries cfg →
  (∀ s first, workers s !! i = Some (Fetching u false) →
     status (checkUrl u first) = Some 0 →
     ∃ s', step cfg i first s = Some s'
           ∧ workers s' !! i = Some (Sleeping u 1000)
           ∧ results s' = results s ∧ queue s' = queue s
           ∧ attempts s' = attempts s ++ [checkUrl u first])
  ∧ (∀ s ms nav, workers s !! i = Some (Sleeping u ms) →
       ∃ s', step cfg i nav s = Some s'
             ∧ workers s' !! i = Some (Fetching u true)
             ∧ results s' = results s ∧ queue s' = queue s
             ∧ attempts s' = attempts s)
  ∧ (∀ s second, workers s !! i = Some (Fetching u true) →
       ∃ s', step cfg i second s = Some s'
             ∧ workers s' !! i = Some (next (queue s)).1
             ∧ results s' = results s ++ [checkUrl u second]
             ∧ attempts s' = attempts s ++ [checkUrl u second]
             ∧ (status (checkUrl u second) = Some 0 →
                classify (checkUrl u second) = Failed))
  ∧ (∀ nav, fst <$> properties (checkUrl u nav)
            = ["url"; "status"; "statusText"; "title"; "error"; "time"]
            ∧ property "retryCount" (checkUrl u nav) = None).
Proof.
  intros Hretries. split_and!.
  - intros s first Hi H0. unfold step, retry_wanted. rewrite Hi, H0.
    rewrite bool_decide_eq_true_2 by done.
    destruct (Z.ltb_spec 0 (retries cfg)); [|lia]. simpl.
    eexists. split; [done|]. simpl. split_and!; try done.
    apply list_lookup_insert_eq. by eapply lookup_lt_Some.
  - intros s ms nav Hi. unfold step. rewrite Hi.
    eexists. split; [done|]. simpl. split_and!; try done.
    apply list_lookup_insert_eq. by eapply lookup_lt_Some.
  - intros s second Hi. unfold step. rewrite Hi.
    destruct (next (queue s)) as [ph q] eqn:Hn.
    eexists. split; [done|]. simpl. split_and!; try done.
    + apply list_lookup_insert_eq. by eapply lookup_lt_Some.
    + apply classify_zero.
  - intros nav. done.
Qed.

Lemma retry_exhaustion_witness :
  ∃ s1 s2 s3,
    step CONFIG 0 no_host one_fetching = Some s1
    ∧ step CONFIG 0 no_host s1 = Some s2
    ∧ step CONFIG 0 no_host s2 = Some s3
    ∧ results s3 = [checkUrl "https://example.org/b" no_host]
    ∧ length (attempts s3) = 2%nat.
Proof.
  destruct (retry_exhaustion CONFIG 0 "https://example.org/b") as (Ha & Hb & Hc & _).
  { reflexivity. }
  destruct (Ha one_fetching no_host) as (s1 & H1 & Hw1 & Hr1 & _ & Ht1);
    [reflexivity|reflexivity|].
  destruct (Hb s1 1000 no_host Hw1) as (s2 & H2 & Hw2 & Hr2 & _ & Ht2).
  destruct (Hc s2 no_host Hw2) as (s3 & H3 & _ & Hr3 & Ht3 & _).
  exists s1, s2, s3. split_and!; try done.
  - by rewrite Hr3, Hr2, Hr1.
  - by rewrite Ht3, Ht2, Ht1.
Defined.

(** * Further properties of the code *)

(** ** Strings *)

Lemma append_nil_l (s : string) : EmptyString +:+ s = s.
Proof. reflexivity. Qed.

Lemma append_cons (c : ascii) (a b : string) : String c a +:+ b = String c (a +:+ b).
Proof. reflexivity. Qed.

Lemma append_nil_r (s : string) : s +:+ EmptyString = s.
Proof. induction s as [|c s IH]; [done|]. by rewrite append_cons, IH. Qed.

Lemma append_assoc (a b c : string) : (a +:+ b) +:+ c = a +:+ (b +:+ c).
Proof. induction a as [|x a IH]; [done|]. by rewrite !append_cons, IH. Qed.

Lemma prefix_nil (s : string) : String.prefix EmptyString s = true.
Proof. by destruct s. Qed.

Lemma prefix_cons (c d : ascii) (p s : string) :
  String.prefix (String c p) (String d s) = true ↔ c = d ∧ String.prefix p s = true.
Proof.
  simpl. destruct (Ascii.ascii_dec c d) as [->|Hne]; [tauto|].
  split; [done|]. by intros [? _].
Qed.

Lemma prefix_app (p s : string) :
  String.prefix p s = true ↔ ∃ r, s = p +:+ r.
Proof.
  revert s. induction p as [|c p IH]; intros s.
  - rewrite prefix_nil. split; [by exists s|done].
  - destruct s as [|d s].
    + split; [done|]. by intros (r & ?).
    + rewrite prefix_cons, IH. split.
      * intros (-> & r & ->). by exists r.
      * intros (r & Hr). rewrite append_cons in Hr. injection Hr as -> ->. eauto.
Qed.

Lemma prefix_refl (s : string) : String.prefix s s = true.
Proof. apply prefix_app. exists EmptyString. by rewrite append_nil_r. Qed.

Lemma prefix_trans (a b s : string) :
  String.prefix a b = true → String.prefix b s = true → String.prefix a s = true.
Proof.
  rewrite !prefix_app. intros (r1 & ->) (r2 & ->).
  exists (r1 +:+ r2). apply append_assoc.
Qed.

Lemma includes_cons (c : ascii) (s p : string) :
  includes (String c s) p = String.prefix p (String c s) || includes s p.
Proof. reflexivity. Qed.

Lemma includes_nil (p : string) :
  includes EmptyString p = String.prefix p EmptyString.
Proof. unfold includes. apply orb_false_r. Qed.

Lemma includes_prefix (s a b : string) :
  String.prefix a b = true → includes s b = true → includes s a = true.
Proof.
  intros Hab. induction s as [|c s IH].
  - rewrite !includes_nil. by apply prefix_trans.
  - rewrite !includes_cons. intros [H|H]%orb_true_iff; apply orb_true_iff.
    + left. by eapply prefix_trans.
    + right. by apply IH.
Qed.

Lemma includes_self_prefix (s p : string) :
  String.prefix p s = true → includes s p = true.
Proof.
  intros H. destruct s; [by rewrite includes_nil|].
  by rewrite includes_cons, H.
Qed.

Lemma includes_append (a b p : string) :
  includes b p = true → includes (a +:+ b) p = true.
Proof.
  intros H. induction a as [|c a IH]; [done|].
  rewrite append_cons, includes_cons, IH. apply orb_true_r.
Qed.

Lemma substring_all (s : string) : String.substring 0 (String.length s) s = s.
Proof. induction s; simpl; congruence. Qed.

Lemma every_append (P : ascii → bool) (a b : string) :
  every P (a +:+ b) = every P a && every P b.
Proof.
  induction a as [|c a IH]; [done|].
  rewrite append_cons. simpl. by rewrite IH, andb_assoc.
Qed.

(** ** extractUrls: what a scanned URL looks like *)

Lemma url_run_prefix (s : string) : String.prefix (url_run s) s = true.
Proof.
  induction s as [|c s IH]; [done|]. cbn [url_run].
  destruct (url_char c); [|apply prefix_nil]. by apply prefix_cons.
Qed.

Lemma url_run_every (s : string) : every url_char (url_run s) = true.
Proof.
  induction s as [|c s IH]; simpl; [done|].
  destruct (url_char c) eqn:Hc; simpl; [|done]. by rewrite Hc.
Qed.

Lemma match_tail_shape (pre s m : string) :
  match_tail pre s = Some m →
  ∃ body, m = pre +:+ "://" +:+ body ∧ body ≠ EmptyString
          ∧ every url_char body = true
          ∧ String.prefix ("://" +:+ body) s = true.
Proof.
  unfold match_tail. destruct (String.prefix "://" s) eqn:Hp; [|done].
  apply prefix_app in Hp as (r & ->).
  change (String.substring 3 (String.length ("://" +:+ r) - 3) ("://" +:+ r))
    with (String.substring 0 (String.length r - 0) r).
  rewrite Nat.sub_0_r, substring_all.
  destruct (url_run r) as [|c body] eqn:Hrun; [done|]. intros [= <-].
  exists (String c body). split_and!; [done|done| |].
  - rewrite <-Hrun. apply url_run_every.
  - rewrite <-Hrun. rewrite !append_cons, append_nil_l.
    rewrite !prefix_cons. split_and!; try done. apply url_run_prefix.
Qed.

Lemma match_here_shape (s m : string) :
  match_here s = Some m →
  ∃ pre body, (pre = "http" ∨ pre = "https")
              ∧ m = pre +:+ "://" +:+ body ∧ body ≠ EmptyString
              ∧ every url_char body = true
              ∧ String.prefix m s = true.
Proof.
  unfold match_here. destruct (String.prefix "http" s) eqn:Hp; [|done].
  apply prefix_app in Hp as (r & ->).
  change (String.substring 4 (String.length ("http" +:+ r) - 4) ("http" +:+ r))
    with (String.substring 0 (String.length r - 0) r).
  rewrite Nat.sub_0_r, substring_all.
  assert (Htail : ∀ pre t, match_tail pre t = Some m →
            "http" +:+ r = pre +:+ t →
            (pre = "http" ∨ pre = "https") →
            ∃ pre body, (pre = "http" ∨ pre = "https")
              ∧ m = pre +:+ "://" +:+ body ∧ body ≠ EmptyString
              ∧ every url_char body = true
              ∧ String.prefix m ("http" +:+ r) = true).
  { intros pre t Ht Hpre Hor.
    destruct (match_tail_shape _ _ _ Ht) as (body & -> & Hne & Hev & Hpt).
    exists pre, body. split_and!; try done.
    apply prefix_app in Hpt as (r1 & ->).
    apply prefix_app. exists r1. rewrite Hpre.
    by rewrite !append_assoc. }
  destruct (match r with
            | String "s" r' => match_tail "https" r'
            | _ => None
            end) as [m'|] eqn:Hs.
  - intros [= ->].
    destruct r as [|c r']; [done|].
    destruct (Ascii.ascii_dec c "s") as [->|Hc].
    + apply (Htail "https" r'); auto.
    + exfalso. revert Hs. clear -Hc.
      destruct c as [[] [] [] [] [] [] [] []]; done.
  - intros H. apply (Htail "http" r); auto.
Qed.

Lemma match_all_elem (k : nat) (s m : string) :
  m ∈ match_all k s →
  includes s m = true
  ∧ ∃ pre body, (pre = "http" ∨ pre = "https")
                ∧ m = pre +:+ "://" +:+ body ∧ body ≠ EmptyString
                ∧ every url_char body = true.
Proof.
  revert k. induction s as [|c s IH]; intros k; [by intros ?%elem_of_nil|].
  cbn [match_all]. rewrite includes_cons.
  assert (Hrest : ∀ j, m ∈ match_all j s →
            String.prefix m (String c s) || includes s m = true
            ∧ ∃ pre body, (pre = "http" ∨ pre = "https")
                ∧ m = pre +:+ "://" +:+ body ∧ body ≠ EmptyString
                ∧ every url_char body = true).
  { intros j Hj. destruct (IH j Hj) as [Hin Hshape]. split; [|done].
    rewrite Hin. apply orb_true_r. }
  destruct k as [|k]; [|apply Hrest].
  destruct (match_here (String c s)) as [m'|] eqn:Hm; [|apply Hrest].
  intros [->|Hin]%elem_of_cons; [|by eapply Hrest].
  destruct (match_here_shape _ _ Hm) as (pre & body & Hor & -> & Hne & Hev & Hp).
  split; [by rewrite Hp|]. by exists pre, body.
Qed.

(** The cleaning keeps everything up to a character it would not remove. *)
Lemma all_punct_append (a b : string) :
  all_punct (a +:+ b) = all_punct a && all_punct b.
Proof.
  induction a as [|c a IH]; [done|].
  rewrite append_cons. simpl. by rewrite IH, andb_assoc.
Qed.

Lemma clean_keep (a : string) (c : ascii) (t : string) :
  punct c = false → clean (a +:+ String c t) = a +:+ String c (clean t).
Proof.
  intros Hc. induction a as [|x a IH].
  - rewrite !append_nil_l. cbn [clean all_punct]. by rewrite Hc.
  - rewrite !append_cons. cbn [clean all_punct].
    rewrite all_punct_append. cbn [all_punct]. rewrite Hc.
    rewrite andb_false_l, andb_false_r, andb_false_r. by rewrite IH.
Qed.

Lemma clean_prefix (s : string) : String.prefix (clean s) s = true.
Proof.
  induction s as [|c s IH]; [done|]. cbn [clean].
  destruct (all_punct (String c s)); [apply prefix_nil|]. by apply prefix_cons.
Qed.

Lemma every_clean (P : ascii → bool) (s : string) :
  every P s = true → every P (clean s) = true.
Proof.
  induction s as [|c s IH]; [done|]. cbn [clean].
  destruct (all_punct (String c s)); [done|]. simpl.
  intros [-> Hs]%andb_true_iff. by apply IH.
Qed.

Lemma clean_url (pre body : string) :
  clean (pre +:+ "://" +:+ body) = pre +:+ "://" +:+ clean body.
Proof.
  change (pre +:+ "://" +:+ body) with (pre +:+ String ":" ("/" +:+ String "/" body)).
  rewrite clean_keep by done.
  by rewrite (clean_keep "/" "/" body) by done.
Qed.

Lemma extractUrls_form (content u : string) :
  u ∈ extractUrls content →
  ∃ pre body, (pre = "http" ∨ pre = "https")
              ∧ u = pre +:+ "://" +:+ clean body
              ∧ every url_char body = true
              ∧ includes content (pre +:+ "://" +:+ body) = true.
Proof.
  unfold extractUrls. rewrite set_spread_elem, list_elem_of_fmap.
  intros (m & -> & Hm).
  destruct (match_all_elem _ _ _ Hm) as (Hin & pre & body & Hor & -> & Hne & Hev).
  exists pre, body. by rewrite clean_url.
Qed.

Lemma extractUrls_nonempty (content u : string) :
  u ∈ extractUrls content → u ≠ EmptyString.
Proof.
  intros (pre & body & Hor & -> & _)%extractUrls_form.
  by destruct Hor as [-> | ->].
Qed.

(** A URL scanned from a document starts with its scheme, is made of the
    characters the pattern allows, and stands in the document as it is. *)
Theorem extractUrls_shape (content u : string) :
  u ∈ extractUrls content →
  (startsWith u "http://" = true ∨ startsWith u "https://" = true)
  ∧ every url_char u = true
  ∧ includes content u = true
  ∧ truthy (Some u) = true.
Proof.
  intros (pre & body & Hor & -> & Hev & Hin)%extractUrls_form.
  split_and!.
  - unfold startsWith.
    destruct Hor as [-> | ->]; [left|right]; apply prefix_app; by eexists.
  - rewrite !every_append, (every_clean _ _ Hev).
    by destruct Hor as [-> | ->].
  - eapply includes_prefix; [|exact Hin].
    rewrite <-clean_url. apply clean_prefix.
  - by destruct Hor as [-> | ->].
Qed.

Lemma extractUrls_shape_witness :
  extractUrls "See (https://example.org/a), and http://example.org/b."
  = ["https://example.org/a"; "http://example.org/b"]
  ∧ startsWith "http://example.org/b" "http://" = true
  ∧ every url_char "http://example.org/b" = true.
Proof.
  split; [reflexivity|].
  destruct (extractUrls_shape "See (https://example.org/a), and http://example.org/b."
              "http://example.org/b") as ([H|H] & He & _ & _).
  - apply list_elem_of_In. vm_compute. auto.
  - split; [exact H|exact He].
  - discriminate H.
Defined.

(** ** extractUrls: documents without links, and the order of the result *)

Lemma match_here_http (s : string) :
  String.prefix "http" s = false → match_here s = None.
Proof. unfold match_here. by intros ->. Qed.

Lemma match_all_none (s : string) (k : nat) :
  includes s "http" = false → match_all k s = [].
Proof.
  revert k. induction s as [|c s IH]; intros k; [done|].
  rewrite includes_cons. intros [Hp Hs]%orb_false_iff.
  cbn [match_all]. destruct k as [|k]; [|by apply IH].
  rewrite (match_here_http _ Hp). by apply IH.
Qed.

(** A markdown file in which the letters http never occur gives no URL,
    and the run ends there with exit status 1. *)
Theorem frontier_without_links (inv : Invocation) (a content : string) :
  head (argv inv) = Some a → "--url" ∉ argv inv → "--stdin" ∉ argv inv →
  existsSync inv a = true → readFileSync inv a = Normal content →
  includes content "http" = false →
  extractUrls content = [] ∧ frontier inv = Exit 1 ["No URLs found."].
Proof.
  intros Ha Hu Hs Hex Hf Hc.
  assert (He : extractUrls content = []).
  { unfold extractUrls. by rewrite (match_all_none _ _ Hc). }
  split; [done|]. unfold frontier.
  rewrite bool_decide_eq_false_2, bool_decide_eq_false_2 by done.
  destruct (argv inv) as [|a' rest]; [done|]. injection Ha as ->.
  rewrite Hex, Hf. simpl. by rewrite He.
Qed.

Lemma frontier_without_links_witness :
  frontier {| argv := ["NOTES.md"]; stdin := Normal EmptyString;
              existsSync := λ _, true;
              readFileSync := λ _, Normal "No links here, only ftp://example.org/x." |}
  = Exit 1 ["No URLs found."].
Proof.
  apply (frontier_without_links _ "NOTES.md"
           "No links here, only ftp://example.org/x.").
  - reflexivity.
  - intros H. apply list_elem_of_singleton in H. discriminate H.
  - intros H. apply list_elem_of_singleton in H. discriminate H.
  - reflexivity.
  - reflexivity.
  - reflexivity.
Defined.

Lemma set_spread_fold_sublist (xs seen : list string) :
  ∃ more, fold_left (λ (seen : list string) x,
                       if bool_decide (x ∈ seen) then seen else seen ++ [x]) xs seen
          = seen ++ more
          ∧ sublist more xs
          ∧ (NoDup (seen ++ xs) → more = xs).
Proof.
  revert seen. induction xs as [|x xs IH]; intros seen; simpl.
  - exists []. by rewrite app_nil_r.
  - case_bool_decide as Hx.
    + destruct (IH seen) as (more & -> & Hsub & Hnd). exists more.
      split_and!; [done|by apply sublist_cons|].
      intros Hdup. apply NoDup_app in Hdup as (_ & Hdis & _).
      exfalso. apply (Hdis x Hx). by left.
    + destruct (IH (seen ++ [x])) as (more & -> & Hsub & Hnd). exists (x :: more).
      split_and!; [by rewrite <-app_assoc|by apply sublist_skip|].
      intros Hdup. f_equal. apply Hnd. by rewrite <-app_assoc.
Qed.

(** Deduplication keeps the order of the document: what [extractUrls]
    returns is a sub-sequence of the cleaned matches, and when these are
    already distinct it returns them all, as they come. *)
Theorem extractUrls_order (content : string) :
  sublist (extractUrls content) (clean <$> match_all 0 content)
  ∧ (NoDup (clean <$> match_all 0 content) →
     extractUrls content = clean <$> match_all 0 content).
Proof.
  unfold extractUrls, set_spread.
  destruct (set_spread_fold_sublist (clean <$> match_all 0 content) [])
    as (more & -> & Hsub & Hnd).
  split; [done|]. intros H. by apply Hnd.
Qed.

Lemma extractUrls_order_witness :
  extractUrls "https://example.org/a, https://example.org/b."
  = clean <$> match_all 0 "https://example.org/a, https://example.org/b.".
Proof.
  apply extractUrls_order. vm_compute.
  apply NoDup_cons. split; [|apply NoDup_singleton].
  intros H. apply list_elem_of_singleton in H. discriminate H.
Defined.

(** ** checkUrl: the shape of an outcome *)




(** ** The retry: which attempts are repeated *)

(** The guard of the retry holds exactly when [retries] is positive and
    the attempt ended with a status identical to zero. *)
Lemma retry_guard (cfg : Config) (u : string) (nav : Nav) :
  retry_wanted cfg (checkUrl u nav) = true
  ↔ 0 < retries cfg
    ∧ match nav with
      | Resolved response _ _ => num_or (resp_status <$> response) 0 = 0
      | Rejected message _ =>
          includes message "net::ERR_NAME_NOT_RESOLVED"
          || includes message "net::ERR_CONNECTION_REFUSED"
          || includes message "net::ERR_CONNECTION_TIMED_OUT"
          || includes message "Navigation timeout" = true
      end.
Proof.
  unfold retry_wanted. rewrite andb_true_iff, bool_decide_eq_true, Z.ltb_lt.
  destruct nav as [resp t ms|message ms]; cbn [checkUrl].
  - cbn. split; intros [H1 H2]; split; try done; congruence.
  - repeat match goal with |- context [includes ?a ?b] => destruct (includes a b) end;
      cbn; split; intros [H1 H2]; split; done.
Qed.

Lemma next_not_sleeping (q : list (option string)) (u : string) (ms : Z) :
  (next q).1 ≠ Sleeping u ms.
Proof.
  destruct q as [|[v|] q]; simpl; [done| |done].
  by destruct (negb (String.eqb v EmptyString)).
Qed.

(** When an attempt on a target comes back, the worker pauses for 1000 ms
    to try once more exactly when the attempt was the first one, [retries]
    is positive and the attempt ended with a status identical to zero: the
    navigation resolved without a response or with status 0, or it failed
    with a message that contains one of the four known failures.  Then
    nothing is reported yet.  In every other case, and so always after a
    second attempt, the outcome is pushed onto the results and the worker
    goes back to the queue: no target is attempted a third time. *)
Theorem retry_only_first_attempt (cfg : Config) (i : nat) (u : string) (again : bool)
    (nav : Nav) (s s' : Pool) :
  workers s !! i = Some (Fetching u again) →
  step cfg i nav s = Some s' →
  (workers s' !! i = Some (Sleeping u 1000)
   ↔ again = false ∧ 0 < retries cfg
     ∧ match nav with
       | Resolved response _ _ => num_or (resp_status <$> response) 0 = 0
       | Rejected message _ =>
           includes message "net::ERR_NAME_NOT_RESOLVED"
           || includes message "net::ERR_CONNECTION_REFUSED"
           || includes message "net::ERR_CONNECTION_TIMED_OUT"
           || includes message "Navigation timeout" = true
       end)
  ∧ (workers s' !! i = Some (Sleeping u 1000) →
     results s' = results s ∧ queue s' = queue s
     ∧ attempts s' = attempts s ++ [checkUrl u nav])
  ∧ (workers s' !! i ≠ Some (Sleeping u 1000) →
     results s' = results s ++ [checkUrl u nav]
     ∧ workers s' !! i = Some (next (queue s)).1
     ∧ attempts s' = attempts s ++ [checkUrl u nav]).
Proof.
  intros Hi Hstep.
  assert (Hlt : (i < length (workers s))%nat) by by eapply lookup_lt_Some.
  pose proof (retry_guard cfg u nav) as Hguard.
  unfold step in Hstep. rewrite Hi in Hstep.
  destruct again.
  - destruct (next (queue s)) as [ph q] eqn:Hn. injection Hstep as <-. simpl.
    rewrite list_lookup_insert_eq by done.
    pose proof (next_not_sleeping (queue s) u 1000) as Hns. rewrite Hn in Hns.
    split_and!.
    + split; [intros [= ->]; done|by intros [? _]].
    + intros [= ->]. done.
    + done.
  - destruct (retry_wanted cfg (checkUrl u nav)) eqn:Hr.
    + injection Hstep as <-. simpl. rewrite list_lookup_insert_eq by done.
      split_and!; [|done|done].
      split; [intros _; split; [done|by apply Hguard]|done].
    + destruct (next (queue s)) as [ph q] eqn:Hn. injection Hstep as <-. simpl.
      rewrite list_lookup_insert_eq by done.
      pose proof (next_not_sleeping (queue s) u 1000) as Hns. rewrite Hn in Hns.
      split_and!.
      * split; [intros [= ->]; done|].
        intros (_ & Hg). apply Hguard in Hg. congruence.
      * intros [= ->]. done.
      * done.
Qed.

Lemma retry_only_first_attempt_witness :
  ∃ s1 s2 s3,
    step CONFIG 0 no_host one_fetching = Some s1
    ∧ workers s1 !! 0%nat = Some (Sleeping "https://example.org/b" 1000)
    ∧ step CONFIG 0 no_host s1 = Some s2
    ∧ step CONFIG 0 no_host s2 = Some s3
    ∧ results s3 = [checkUrl "https://example.org/b" no_host]
    ∧ workers s3 = [Closed].
Proof.
  exists {| queue := []; results := [];
            workers := [Sleeping "https://example.org/b" 1000];
            attempts := [checkUrl "https://example.org/b" no_host] |},
         {| queue := []; results := [];
            workers := [Fetching "https://example.org/b" true];
            attempts := [checkUrl "https://example.org/b" no_host] |},
         {| queue := []; results := [checkUrl "https://example.org/b" no_host];
            workers := [Closed];
            attempts := [checkUrl "https://example.org/b" no_host;
                         checkUrl "https://example.org/b" no_host] |}.
  split; [reflexivity|]. split.
  - apply (retry_only_first_attempt CONFIG 0 "https://example.org/b" false no_host
             one_fetching); [reflexivity|reflexivity|].
    split; [reflexivity|]. split; [reflexivity|reflexivity].
  - split; [reflexivity|]. split; [reflexivity|].
    split; [|reflexivity].
    apply (retry_only_first_attempt CONFIG 0 "https://example.org/b" true no_host
             {| queue := []; results := [];
                workers := [Fetching "https://example.org/b" true];
                attempts := [checkUrl "https://example.org/b" no_host] |});
      [reflexivity|reflexivity|discriminate].
Defined.

(** ** The worker pool: how often a target is attempted *)

Lemma retrying_split (u : string) (pre post : list Phase) (p : Phase) :
  length (filter (λ q, Is_true (retrying u q)) (pre ++ p :: post))
  = (length (filter (λ q, Is_true (retrying u q)) pre)
     + (if retrying u p then 1 else 0)
     + length (filter (λ q, Is_true (retrying u q)) post))%nat.
Proof.
  rewrite filter_app, filter_cons, length_app.
  destruct (retrying u p) eqn:E; case_decide; simpl in *; try done; lia.
Qed.

Lemma count_snoc (u : string) (l : list Result) (r : Result) :
  length (filter (λ a, url a = u) (l ++ [r]))
  = (length (filter (λ a, url a = u) l) + (if decide (url r = u) then 1 else 0))%nat.
Proof.
  rewrite filter_app, filter_cons, length_app. case_decide; simpl; lia.
Qed.

Lemma retrying_next (u : string) (q : list (option string)) :
  retrying u (next q).1 = false.
Proof.
  destruct q as [|[v|] q]; simpl; [done| |done].
  by destruct (negb (String.eqb v EmptyString)).
Qed.

Lemma step_attempts (cfg : Config) (i : nat) (nav : Nav) (s s' : Pool) (u : string) :
  step cfg i nav s = Some s' →
  (length (filter (λ a, url a = u) (results s))
   ≤ length (filter (λ a, url a = u) (attempts s))
   ≤ 2 * length (filter (λ a, url a = u) (results s))
     + length (filter (λ q, Is_true (retrying u q)) (workers s)))%nat →
  (length (filter (λ a, url a = u) (results s'))
   ≤ length (filter (λ a, url a = u) (attempts s'))
   ≤ 2 * length (filter (λ a, url a = u) (results s'))
     + length (filter (λ q, Is_true (retrying u q)) (workers s')))%nat.
Proof.
  intros Hstep. apply step_inv in Hstep.
  destruct Hstep as [Hi ->|v Hi _ ->|v ms Hi ->|v again Hi _ ->]; simpl;
    destruct (workers_split _ _ _ Hi) as (pre & post & Hw & ->);
    rewrite Hw, !retrying_split, ?count_snoc, ?url_checkUrl, ?retrying_next; simpl.
  - lia.
  - destruct (String.eqb_spec v u) as [->|Hne].
    + rewrite decide_True by done. lia.
    + rewrite decide_False by done. lia.
  - lia.
  - destruct again; simpl; destruct (String.eqb_spec v u) as [->|Hne];
      rewrite ?decide_True, ?decide_False by done; lia.
Qed.

Lemma step_attempts_off (cfg : Config) (i : nat) (nav : Nav) (s s' : Pool) :
  retries cfg ≤ 0 →
  step cfg i nav s = Some s' →
  attempts s = results s ∧ (∀ u, Forall (λ q, retrying u q = false) (workers s)) →
  attempts s' = results s' ∧ (∀ u, Forall (λ q, retrying u q = false) (workers s')).
Proof.
  intros Hoff Hstep [Heq Hno]. apply step_inv in Hstep.
  assert (Hins : ∀ ph, (∀ u, retrying u ph = false) →
            ∀ u, Forall (λ q, retrying u q = false) (<[i := ph]> (workers s))).
  { intros ph Hph u. apply Forall_insert; [apply Hno|apply Hph]. }
  destruct Hstep as [Hi ->|v Hi Hr ->|v ms Hi ->|v again Hi _ ->]; simpl.
  - split; [done|]. apply Hins. intros u. apply retrying_next.
  - unfold retry_wanted in Hr. apply andb_true_iff in Hr as [_ Hr].
    apply Z.ltb_lt in Hr. lia.
  - exfalso. specialize (Hno v). rewrite Forall_lookup in Hno.
    specialize (Hno _ _ Hi). simpl in Hno. by rewrite String.eqb_refl in Hno.
  - split; [by rewrite Heq|]. apply Hins. intros u. apply retrying_next.
Qed.

Lemma completed_not_retrying (u : string) (ws : list Phase) :
  forallb is_closed ws = true → filter (λ q, Is_true (retrying u q)) ws = [].
Proof.
  induction ws as [|p ws IH]; [done|]. simpl.
  intros [Hp Hws]%andb_true_iff. destruct p; try done.
  rewrite filter_cons, decide_False by auto. by apply IH.
Qed.

(** What every step keeps, every run keeps. *)
Lemma run_preserves (P : Pool → Prop) (cfg : Config) :
  (∀ i nav s s', step cfg i nav s = Some s' → P s → P s') →
  ∀ events s s', run cfg events s = Some s' → P s → P s'.
Proof.
  intros Hstep events. induction events as [|[i nav] events IH]; intros s s'; simpl.
  - by intros [= ->].
  - destruct (step cfg i nav s) as [s1|] eqn:Hs; [|done].
    intros Hrun Hp. apply (IH s1 s' Hrun). by eapply Hstep.
Qed.

(** Every target is attempted once or twice: when the workers are done, the
    attempts made on a URL are at least as many as the outcomes reported
    for it and at most twice as many; and with [retries] at zero there is
    exactly one attempt per outcome. *)
Theorem attempts_per_target (cfg : Config) (urls : list (option string))
    (events : list (nat * Nav)) (s : Pool) :
  run cfg events (start cfg urls) = Some s → completed s = true →
  (∀ u, (length (filter (λ a, url a = u) (results s))
         ≤ length (filter (λ a, url a = u) (attempts s))
         ≤ 2 * length (filter (λ a, url a = u) (results s)))%nat)
  ∧ (retries cfg ≤ 0 → attempts s = results s).
Proof.
  intros Hrun Hc. split.
  - intros u.
    pose proof (run_preserves _ cfg
                  (λ i nav s s', step_attempts cfg i nav s s' u) _ _ _ Hrun) as H.
    cbv beta in H. rewrite (completed_not_retrying u _ Hc) in H.
    simpl in H. lia.
  - intros Hoff.
    apply (run_preserves _ cfg
             (λ i nav s s', step_attempts_off cfg i nav s s' Hoff) _ _ _ Hrun).
    split; [done|]. intros u. simpl. apply Forall_replicate. done.
Qed.

Lemma attempts_per_target_witness :
  run two_tabs schedule
    (start two_tabs [Some "https://example.org/a"; Some "https://example.org/b"])
  = Some schedule_end
  ∧ (length (filter (λ a, url a = "https://example.org/b") (attempts schedule_end))
     ≤ 2 * length (filter (λ a, url a = "https://example.org/b") (results schedule_end)))%nat.
Proof.
  split; [reflexivity|].
  apply (attempts_per_target two_tabs
           [Some "https://example.org/a"; Some "https://example.org/b"] schedule
           schedule_end); reflexivity.
Defined.

(** ** The worker pool: repeated, falsy and ordered targets *)

Lemma completed_perm (cfg : Config) (urls : list string) (events : list (nat * Nav))
    (s : Pool) :
  Forall (λ u, u ≠ EmptyString) urls → (0 < concurrency cfg)%nat →
  run cfg events (start cfg (Some <$> urls)) = Some s → completed s = true →
  url <$> results s ≡ₚ urls.
Proof.
  intros Hne Hp Hrun Hc.
  assert (Ha : accounted urls s).
  { apply (run_preserves _ cfg (step_accounted urls cfg) _ _ _ Hrun).
    by apply start_accounted. }
  assert (Hq : queue s = []).
  { eapply run_drained; [done|by apply start_accounted| |].
    - simpl. intros Hin. by apply elem_of_replicate_inv in Hin.
    - apply completed_closed; [|done].
      apply run_workers_length in Hrun. simpl in Hrun.
      rewrite length_replicate in Hrun. intros Hw. rewrite Hw in Hrun.
      simpl in Hrun. lia. }
  destruct Ha as (q & Hq' & _ & Hperm).
  rewrite Hq in Hq'. symmetry in Hq'. apply fmap_nil_inv in Hq' as ->.
  by rewrite (completed_held _ Hc), !app_nil_r in Hperm.
Qed.

(** A URL listed more than once is checked as often as it is listed: for
    any list of non-empty URLs, repeated or not, the outcomes of a finished
    run carry exactly the URLs of the list, each as often as it occurs. *)
Theorem processUrls_keeps_duplicates (cfg : Config) (urls : list string)
    (events : list (nat * Nav)) (rs : list Result) :
  Forall (λ u, u ≠ EmptyString) urls → (0 < concurrency cfg)%nat →
  processUrls cfg (Some <$> urls) events = Some rs →
  url <$> rs ≡ₚ urls ∧ length rs = length urls.
Proof.
  intros Hne Hp. unfold processUrls.
  destruct (run cfg events (start cfg (Some <$> urls))) as [s|] eqn:Hrun; [|done].
  destruct (completed s) eqn:Hc; [|done]. intros [= <-].
  pose proof (completed_perm cfg urls events s Hne Hp Hrun Hc) as Hperm.
  split; [done|]. by rewrite <-(length_fmap url), Hperm.
Qed.

Lemma processUrls_keeps_duplicates_witness :
  length [checkUrl "https://example.org/b" ok_page;
          checkUrl "https://example.org/b" ok_page] = 2%nat.
Proof.
  eapply proj2.
  apply (processUrls_keeps_duplicates two_tabs
           ["https://example.org/b"; "https://example.org/b"]
           [(0%nat, ok_page); (1%nat, ok_page); (0%nat, ok_page); (1%nat, ok_page)]
           [checkUrl "https://example.org/b" ok_page;
            checkUrl "https://example.org/b" ok_page]).
  - repeat constructor; discriminate.
  - simpl. lia.
  - reflexivity.
Defined.

Lemma next_listed (q : list (option string)) :
  (∀ v, v ∈ (next q).2 → v ∈ q)
  ∧ (∀ u, u ∈ holding (next q).1 → Some u ∈ q ∧ u ≠ EmptyString).
Proof.
  destruct q as [|[v|] q]; simpl.
  - split; [done|]. by intros u ?%elem_of_nil.
  - destruct (String.eqb_spec v EmptyString) as [->|Hne]; simpl.
    + split; [by right|]. by intros u ?%elem_of_nil.
    + split; [by right|]. intros u ->%list_elem_of_singleton. split; [by left|done].
  - split; [by right|]. by intros u ?%elem_of_nil.
Qed.

Lemma step_listed (urls : list (option string)) (cfg : Config) (i : nat) (nav : Nav)
    (s s' : Pool) :
  step cfg i nav s = Some s' →
  (∀ v, v ∈ queue s → v ∈ urls)
  ∧ (∀ u, u ∈ held (workers s) → listed urls u)
  ∧ (∀ r, r ∈ attempts s → listed urls (url r))
  ∧ (∀ r, r ∈ results s → listed urls (url r)) →
  (∀ v, v ∈ queue s' → v ∈ urls)
  ∧ (∀ u, u ∈ held (workers s') → listed urls u)
  ∧ (∀ r, r ∈ attempts s' → listed urls (url r))
  ∧ (∀ r, r ∈ results s' → listed urls (url r)).
Proof.
  intros Hstep (Hq & Hh & Ha & Hr). apply step_inv in Hstep.
  destruct (next_listed (queue s)) as [Hnq Hnh].
  assert (Hnew : ∀ u, u ∈ holding (next (queue s)).1 → listed urls u).
  { intros u Hu. destruct (Hnh u Hu). split; auto. }
  destruct Hstep as [Hi ->|v Hi _ ->|v ms Hi ->|v again Hi _ ->]; simpl;
    destruct (workers_split _ _ _ Hi) as (pre & post & Hw & ->);
    rewrite Hw, held_split in Hh; rewrite held_split;
    setoid_rewrite elem_of_app in Hh; setoid_rewrite elem_of_app;
    setoid_rewrite elem_of_app in Hh; setoid_rewrite elem_of_app.
  - split_and!; [auto| |done|done]. intros u [?|[?|?]]; auto.
  - split_and!; [done|done| |done].
    intros r [?| ->%list_elem_of_singleton]; [auto|].
    rewrite url_checkUrl. apply Hh. right. left. by left.
  - done.
  - assert (Hv : listed urls v).
    { apply Hh. right. left. destruct again; by left. }
    split_and!; [auto| | |].
    + intros u [?|[?|?]]; auto.
    + intros r [?| ->%list_elem_of_singleton]; [auto|]. by rewrite url_checkUrl.
    + intros r [?| ->%list_elem_of_singleton]; [auto|]. by rewrite url_checkUrl.
Qed.

Lemma run_listed (cfg : Config) (urls : list (option string))
    (events : list (nat * Nav)) (s : Pool) :
  run cfg events (start cfg urls) = Some s →
  (∀ r, r ∈ attempts s → listed urls (url r))
  ∧ (∀ r, r ∈ results s → listed urls (url r)).
Proof.
  intros Hrun.
  pose proof (run_preserves _ cfg (step_listed urls cfg) _ _ _ Hrun) as H.
  cbv beta in H. destruct H as (_ & _ & Ha & Hres); [|done].
  simpl. split_and!; [done| |by intros ? ?%elem_of_nil..].
  intros u. rewrite held_replicate_opening. by intros ?%elem_of_nil.
Qed.

(** Only what was asked for is checked: in every state of a run, each
    attempt and each reported outcome bears a URL that stands in the list
    of targets and is not empty. *)
Theorem run_checks_listed_urls (cfg : Config) (urls : list (option string))
    (events : list (nat * Nav)) (s : Pool) (r : Result) :
  run cfg events (start cfg urls) = Some s →
  r ∈ attempts s ∨ r ∈ results s →
  Some (url r) ∈ urls ∧ url r ≠ EmptyString.
Proof.
  intros Hrun Hr. destruct (run_listed cfg urls events s Hrun) as [Ha Hres].
  destruct Hr as [Hr|Hr]; [apply (Ha r Hr)|apply (Hres r Hr)].
Qed.

Lemma run_checks_listed_urls_witness :
  Forall (λ r, url r ≠ EmptyString) (attempts schedule_end).
Proof.
  apply Forall_forall. intros r Hr.
  apply (run_checks_listed_urls two_tabs
           [Some "https://example.org/a"; Some "https://example.org/b"] schedule
           schedule_end r); [reflexivity|]. left. exact Hr.
Defined.

(** [--url] as the last argument, or with an empty value: [main] does not
    stop at the usage text.  It hands the workers a list of one falsy
    entry; the worker that takes it leaves its loop, and every finished run
    returns no outcome at all. *)
Theorem url_flag_without_value (inv : Invocation) (cfg : Config)
    (events : list (nat * Nav)) (rs : list Result) :
  "--url" ∈ argv inv →
  truthy (at_index (argv inv) (indexOf "--url" (argv inv) + 1)) = false →
  frontier inv = Normal [at_index (argv inv) (indexOf "--url" (argv inv) + 1)]
  ∧ (processUrls cfg [at_index (argv inv) (indexOf "--url" (argv inv) + 1)] events
     = Some rs → rs = []).
Proof.
  intros Hu Hv. split.
  - unfold frontier. by rewrite bool_decide_eq_true_2.
  - unfold processUrls.
    destruct (run cfg events (start cfg _)) as [s|] eqn:Hrun; [|done].
    destruct (completed s); [|done]. intros [= <-].
    destruct (results s) as [|r rest] eqn:Hres; [done|]. exfalso.
    destruct (run_listed _ _ _ _ Hrun) as [_ Hlisted].
    destruct (Hlisted r) as [Hin Hne]; [rewrite Hres; by left|].
    apply list_elem_of_singleton in Hin. rewrite <-Hin in Hv. simpl in Hv.
    by destruct (String.eqb_spec (url r) EmptyString).
Qed.

Lemma url_flag_without_value_witness :
  frontier {| argv := ["--url"]; stdin := Normal EmptyString;
              existsSync := λ _, false;
              readFileSync := λ _, Throw "ENOENT: no such file or directory" |}
  = Normal [None]
  ∧ processUrls CONFIG [None]
      [(0%nat, ok_page); (1%nat, ok_page); (2%nat, ok_page); (3%nat, ok_page);
       (4%nat, ok_page)] = Some [].
Proof.
  split; [|reflexivity].
  apply (url_flag_without_value
           {| argv := ["--url"]; stdin := Normal EmptyString;
              existsSync := λ _, false;
              readFileSync := λ _, Throw "ENOENT: no such file or directory" |}
           CONFIG [] []).
  - apply list_elem_of_singleton. reflexivity.
  - reflexivity.
Defined.

(** *** One worker *)

Lemma ahead_next (q : list (option string)) : ahead (next q).1 (next q).2 = leading q.
Proof.
  destruct q as [|[v|] q]; simpl; [done| |done].
  by destruct (negb (String.eqb v EmptyString)).
Qed.

Lemma step_single (urls : list (option string)) (cfg : Config) (i : nat) (nav : Nav)
    (s s' : Pool) :
  step cfg i nav s = Some s' →
  (∃ p, workers s = [p] ∧ (url <$> results s) ++ ahead p (queue s) = leading urls) →
  ∃ p, workers s' = [p] ∧ (url <$> results s') ++ ahead p (queue s') = leading urls.
Proof.
  intros Hstep (p & Hw & Hl). apply step_inv in Hstep.
  assert (Hi0 : ∀ ph, workers s !! i = Some ph → i = 0%nat ∧ ph = p).
  { intros ph Hi. rewrite Hw in Hi. destruct i as [|i]; simpl in Hi; [|done].
    by injection Hi as ->. }
  destruct Hstep as [Hi ->|v Hi _ ->|v ms Hi ->|v again Hi _ ->]; simpl;
    destruct (Hi0 _ Hi) as [-> <-]; rewrite Hw; simpl in *;
    eexists; (split; [done|]); rewrite ?ahead_next; try done.
  rewrite fmap_app, <-app_assoc. simpl. by rewrite url_checkUrl.
Qed.

Lemma leading_all (l : list string) :
  Forall (λ u, u ≠ EmptyString) l → leading (Some <$> l) = l.
Proof.
  induction 1 as [|u l Hu Hl IH]; [done|]. rewrite fmap_cons. cbn [leading truthy].
  destruct (String.eqb_spec u EmptyString); [done|]. cbn [negb]. by rewrite IH.
Qed.

(** With a single worker the outcomes are pushed in the order of the list,
    and the worker stops for good at the first falsy entry: the finished
    run returns the outcomes of the truthy entries in front of it, in order;
    for a list of non-empty URLs, one outcome per URL in list order. *)
Theorem single_worker_order (cfg : Config) (urls : list (option string))
    (events : list (nat * Nav)) (rs : list Result) :
  concurrency cfg = 1%nat →
  processUrls cfg urls events = Some rs →
  url <$> rs = leading urls
  ∧ (∀ l, urls = Some <$> l → Forall (λ u, u ≠ EmptyString) l → url <$> rs = l).
Proof.
  intros Hone. unfold processUrls.
  destruct (run cfg events (start cfg urls)) as [s|] eqn:Hrun; [|done].
  destruct (completed s) eqn:Hc; [|done]. intros [= <-].
  pose proof (run_preserves _ cfg (step_single urls cfg) _ _ _ Hrun) as H.
  cbv beta in H. destruct H as (p & Hw & Hl).
  { exists Opening. simpl. by rewrite Hone. }
  unfold completed in Hc. rewrite Hw in Hc. simpl in Hc.
  destruct p; try done. simpl in Hl. rewrite app_nil_r in Hl.
  split; [done|]. intros l Hurls Hne. rewrite Hl, Hurls. by apply leading_all.
Qed.

Lemma single_worker_order_witness :
  url <$> [checkUrl "https://example.org/a" ok_page] = ["https://example.org/a"].
Proof.
  eapply proj1.
  apply (single_worker_order (with_concurrency CONFIG 1)
           [Some "https://example.org/a"; None; Some "https://example.org/b"]
           [(0%nat, ok_page); (0%nat, ok_page)]
           [checkUrl "https://example.org/a" ok_page]); reflexivity.
Defined.

(** ** The report: the histogram, the order of arrival, and a second pass *)

Lemma tally_positive (rs : list Result) (acc : Summary * gmap Z nat) :
  (∀ st n, acc.2 !! st = Some n → (0 < n)%nat) →
  ∀ st n, (fold_left tally rs acc).2 !! st = Some n → (0 < n)%nat.
Proof.
  revert acc. induction rs as [|r rs IH]; intros acc Hacc; [done|].
  simpl. apply IH. simpl. intros st n.
  destruct (decide (num_or (status r) 0 = st)) as [<-|Hne].
  - rewrite lookup_insert_eq. intros [= <-]. lia.
  - rewrite lookup_insert_ne by done. apply Hacc.
Qed.

Lemma tally_lookup (rs : list Result) (init : Summary) (st : Z) :
  (fold_left tally rs (init, ∅)).2 !! st
  = let n := length (filter (λ r, num_or (status r) 0 = st) rs) in
    if decide (n = 0%nat) then None else Some n.
Proof.
  destruct (tally_fold rs (init, ∅)) as (_ & _ & _ & Hs).
  pose proof (tally_positive rs (init, ∅)) as Hpos.
  destruct (fold_left tally rs (init, ∅)) as [sm hist]. simpl in *.
  specialize (Hs st). rewrite lookup_empty in Hs. simpl in Hs.
  specialize (Hpos ltac:(intros ? ?; by rewrite lookup_empty) st).
  destruct (hist !! st) as [n|] eqn:Hn; simpl in Hs.
  - specialize (Hpos n eq_refl). rewrite <-Hs. by rewrite decide_False by lia.
  - rewrite <-Hs. done.
Qed.

Lemma byStatus_fold (now : string) (rs : list Result) :
  ∃ init, byStatus (generateReport now rs) = (fold_left tally rs (init, ∅)).2.
Proof.
  unfold generateReport.
  exists {| total := length rs; ok := 0; redirects := 0; clientErrors := 0;
            serverErrors := 0; blocked := 0; failed := 0 |}.
  by destruct (fold_left tally rs _) as [sm hist].
Qed.

(** [byStatus] has a key exactly for the raw statuses that occur among the
    results (zero standing for none), and holds their number: never a key
    with a zero count. *)
Theorem byStatus_exact (now : string) (rs : list Result) (st : Z) :
  byStatus (generateReport now rs) !! st
  = let n := length (filter (λ r, num_or (status r) 0 = st) rs) in
    if decide (n = 0%nat) then None else Some n.
Proof.
  destruct (byStatus_fold now rs) as [init ->]. apply tally_lookup.
Qed.

Lemma summary_fields (a b : Summary) :
  total a = total b → (∀ k, bucket_count k a = bucket_count k b) → a = b.
Proof.
  intros Ht Hb. destruct a, b. simpl in *.
  pose proof (Hb Ok). pose proof (Hb Redirect). pose proof (Hb Blocked).
  pose proof (Hb ClientError). pose proof (Hb ServerError). pose proof (Hb Failed).
  simpl in *. congruence.
Qed.

Lemma summary_counts (now : string) (rs : list Result) :
  total (summary (generateReport now rs)) = length rs
  ∧ ∀ b, bucket_count b (summary (generateReport now rs))
         = length (filter (λ r, classify r = b) rs).
Proof.
  unfold generateReport.
  set (init := {| total := length rs; ok := 0; redirects := 0; clientErrors := 0;
                  serverErrors := 0; blocked := 0; failed := 0 |}).
  destruct (tally_fold rs (init, ∅)) as (Ht & Hb & _ & _).
  destruct (fold_left tally rs (init, ∅)) as [sm hist]. simpl in *.
  split; [done|]. intros b. rewrite Hb. by destruct b.
Qed.

Lemma count_perm {A : Type} (P : A → Prop) `{∀ x, Decision (P x)} (l l' : list A) :
  l ≡ₚ l' → length (filter P l) = length (filter P l').
Proof. intros Hp. apply Permutation_length. by apply filter_Permutation. Qed.

Lemma summary_perm (now now' : string) (rs rs' : list Result) :
  rs ≡ₚ rs' → summary (generateReport now rs) = summary (generateReport now' rs').
Proof.
  intros Hperm.
  destruct (summary_counts now rs) as [Ht Hb].
  destruct (summary_counts now' rs') as [Ht' Hb'].
  apply summary_fields.
  - rewrite Ht, Ht'. by apply Permutation_length.
  - intros k. rewrite Hb, Hb'. by apply count_perm.
Qed.

(** The counts do not depend on the order in which the workers finished:
    two lists of the same outcomes in different orders give the same summary
    and the same histogram. *)
Theorem report_counts_any_order (now now' : string) (rs rs' : list Result) :
  rs ≡ₚ rs' →
  summary (generateReport now rs) = summary (generateReport now' rs')
  ∧ byStatus (generateReport now rs) = byStatus (generateReport now' rs').
Proof.
  intros Hperm. split; [by apply summary_perm|].
  destruct (byStatus_fold now rs) as [init ->].
  destruct (byStatus_fold now' rs') as [init' ->].
  apply map_eq. intros st. rewrite !tally_lookup. simpl.
  by rewrite (count_perm _ rs rs' Hperm).
Qed.

Lemma report_counts_any_order_witness :
  summary (generateReport "2025-12-07T00:00:00.000Z" [nameless; linkedin])
  = summary (generateReport "2025-12-07T00:00:05.000Z" [linkedin; nameless]).
Proof.
  apply report_counts_any_order. apply Permutation_swap.
Defined.

Lemma sort_sorted_id {A : Type} (key : A → Z) (l : list A) :
  StronglySorted (λ a b, key a ≤ key b) l →
  Js.sort (λ a b, key a - key b) l = l.
Proof.
  induction 1 as [|x l Hl IH Hx]; [done|]. simpl. rewrite IH.
  destruct l as [|y l]; [done|]. simpl.
  apply Forall_cons in Hx as [Hxy _].
  destruct (Z.leb_spec (key x - key y) 0); [done|lia].
Qed.

(** A second pass changes nothing but the timestamp: the report made from
    the results of a report has the same results in the same order, the
    same summary and the same histogram. *)
Theorem generateReport_again (now now' : string) (rs : list Result) :
  let first := generateReport now rs in
  let second := generateReport now' (report_results first) in
  report_results second = report_results first
  ∧ summary second = summary first
  ∧ byStatus second = byStatus first.
Proof.
  simpl.
  assert (Hperm : report_results (generateReport now rs) ≡ₚ rs).
  { rewrite report_results_sort. apply (sort_perm sort_key). }
  split_and!.
  - rewrite !report_results_sort.
    apply (sort_sorted_id sort_key), (sort_sorted sort_key).
  - by apply summary_perm.
  - destruct (byStatus_fold now' (report_results (generateReport now rs)))
      as [init' ->].
    destruct (byStatus_fold now rs) as [init ->].
    apply map_eq. intros st. rewrite !tally_lookup. simpl.
    by rewrite (count_perm _ _ rs Hperm).
Qed.

(** ** The command line *)

Lemma indexOf_range (x : string) (args : list string) : -1 ≤ indexOf x args.
Proof.
  induction args as [|a args IH]; simpl; [lia|].
  destruct (String.eqb a x); [lia|]. destruct (Z.eqb_spec (indexOf x args) (-1)); lia.
Qed.

Lemma indexOf_absent (x : string) (args : list string) :
  indexOf x args = -1 ↔ x ∉ args.
Proof.
  induction args as [|a args IH]; simpl.
  - split; [intros _ ?%elem_of_nil; done|done].
  - rewrite not_elem_of_cons.
    destruct (String.eqb_spec a x) as [->|Hne].
    + split; [done|]. by intros [? _].
    + pose proof (indexOf_range x args).
      destruct (Z.eqb_spec (indexOf x args) (-1)) as [He|He].
      * split; [|done]. intros _. split; [done|]. by apply IH.
      * split; [lia|]. intros [_ Hx]. apply IH in Hx. lia.
Qed.

Lemma indexOf_found (x : string) (args : list string) :
  indexOf x args ≠ -1 → args !! Z.to_nat (indexOf x args) = Some x.
Proof.
  induction args as [|a args IH]; simpl; [done|].
  destruct (String.eqb_spec a x) as [->|Hne]; [done|].
  pose proof (indexOf_range x args).
  destruct (Z.eqb_spec (indexOf x args) (-1)) as [He|He]; [done|].
  intros _. replace (Z.to_nat (indexOf x args + 1)) with (S (Z.to_nat (indexOf x args)))
    by lia. by apply IH.
Qed.

(** The value [getArg] returns stands right behind the first occurrence of
    one of the flags, and is not empty. *)
Theorem getArg_value (args flags : list string) (a : string) :
  getArg args flags = Some a →
  a ≠ EmptyString
  ∧ ∃ flag i, flag ∈ flags ∧ args !! i = Some flag ∧ args !! S i = Some a
              ∧ ∀ j, (j < i)%nat → args !! j ≠ Some flag.
Proof.
  intros Ha. split.
  { apply getArg_truthy in Ha. simpl in Ha.
    by destruct (String.eqb_spec a EmptyString). }
  induction flags as [|flag flags IH]; [done|]. simpl in Ha.
  destruct (Z.eqb_spec (indexOf flag args) (-1)) as [He|He]; simpl in Ha.
  { destruct (IH Ha) as (f & i & Hf & ?). exists f, i. split; [by right|done]. }
  destruct (truthy (at_index args (indexOf flag args + 1))) eqn:Ht.
  2: { destruct (IH Ha) as (f & i & Hf & ?). exists f, i. split; [by right|done]. }
  pose proof (indexOf_range flag args).
  exists flag, (Z.to_nat (indexOf flag args)). split_and!.
  - by left.
  - by apply indexOf_found.
  - unfold at_index in Ha. destruct (Z.ltb_spec (indexOf flag args + 1) 0); [lia|].
    by replace (Z.to_nat (indexOf flag args + 1))
      with (S (Z.to_nat (indexOf flag args))) in Ha by lia.
  - clear Ha Ht IH. revert H He. induction args as [|b args IH]; simpl; [lia|].
    destruct (String.eqb_spec b flag) as [->|Hne]; [intros; lia|].
    pose proof (indexOf_range flag args).
    destruct (Z.eqb_spec (indexOf flag args) (-1)) as [Hx|Hx]; [lia|].
    intros _ _ j Hj. destruct j as [|j]; simpl; [congruence|].
    apply IH; [lia|done|lia].
Qed.

Lemma getArg_value_witness :
  getArg ["REFERENCES.md"; "--concurrency"; "8"] ["-c"; "--concurrency"] = Some "8"
  ∧ "8" ≠ EmptyString.
Proof.
  split; [reflexivity|].
  apply (getArg_value ["REFERENCES.md"; "--concurrency"; "8"] ["-c"; "--concurrency"]).
  reflexivity.
Defined.

Lemma getArg_absent (args flags : list string) :
  Forall (λ flag, flag ∉ args) flags → getArg args flags = None.
Proof.
  induction 1 as [|flag flags Hf _ IH]; [done|]. simpl.
  apply indexOf_absent in Hf. by rewrite Hf.
Qed.

(** Without [-c] and [--concurrency] on the command line no value is
    found for the option and the configuration stays as it is. *)
Theorem concurrency_option_absent (cfg : Config) (args : list string) :
  "-c" ∉ args → "--concurrency" ∉ args →
  getArg args ["-c"; "--concurrency"] = None
  ∧ parse_concurrency cfg args = Normal cfg.
Proof.
  intros Hc Hcc.
  assert (Hg : getArg args ["-c"; "--concurrency"] = None).
  { apply getArg_absent. repeat constructor; done. }
  split; [done|]. unfold parse_concurrency. by rewrite Hg.
Qed.

Lemma concurrency_option_absent_witness :
  parse_concurrency CONFIG ["REFERENCES.md"] = Normal CONFIG.
Proof.
  apply (concurrency_option_absent CONFIG ["REFERENCES.md"]).
  - intros H. apply list_elem_of_singleton in H. discriminate H.
  - intros H. apply list_elem_of_singleton in H. discriminate H.
Defined.

(** A value of the option that reads as a number from 1 to 20 sets the pool
    size to that number and leaves every other setting alone. *)
Theorem concurrency_option_accepted (cfg : Config) (args : list string) (a : string)
    (n : Z) :
  getArg args ["-c"; "--concurrency"] = Some a →
  parseInt a = Some n → 1 ≤ n ≤ 20 →
  ∃ cfg', parse_concurrency cfg args = Normal cfg'
          ∧ Z.of_nat (concurrency cfg') = n
          ∧ timeout cfg' = timeout cfg ∧ userAgent cfg' = userAgent cfg
          ∧ headless cfg' = headless cfg ∧ retries cfg' = retries cfg.
Proof.
  intros Ha Hn Hr. unfold parse_concurrency.
  rewrite Ha, (getArg_truthy _ _ _ Ha), Hn.
  destruct (Z.ltb_spec 0 n); [|lia]. destruct (Z.leb_spec n 20); [|lia]. simpl.
  eexists. split; [done|]. simpl. split_and!; try done. lia.
Qed.

Lemma concurrency_option_accepted_witness :
  ∃ cfg', parse_concurrency CONFIG ["REFERENCES.md"; "-c"; "12 tabs"] = Normal cfg'
          ∧ Z.of_nat (concurrency cfg') = 12 ∧ retries cfg' = 1.
Proof.
  destruct (concurrency_option_accepted CONFIG ["REFERENCES.md"; "-c"; "12 tabs"]
              "12 tabs" 12) as (cfg' & H & Hc & _ & _ & _ & Hr);
    [reflexivity|reflexivity|lia|].
  exists cfg'. split; [exact H|]. split; [exact Hc|exact Hr].
Defined.

Lemma nonempty_normal (urls urls' : list (option string)) :
  bind (Normal urls) nonempty = Normal urls' → urls' = urls ∧ urls ≠ [].
Proof. destruct urls; simpl; [done|]. by intros [= <-]. Qed.

Lemma nonempty_outcomes (c : Completion (list (option string))) (text : list string) :
  match c with
  | Normal _ => True
  | Throw _ => True
  | Exit code lines => code = 1 ∧ lines = text
  end →
  match bind c nonempty with
  | Normal urls => c = Normal urls ∧ urls ≠ []
  | Throw message => c = Throw message
  | Exit code lines => code = 1 ∧ (lines = text ∨ lines = ["No URLs found."])
  end.
Proof.
  destruct c as [[|v urls]| |]; simpl; [auto|done|done|].
  intros [-> ->]. auto.
Qed.

Lemma read_outcomes (r : Completion string) (f : string → list string) :
  (∀ code lines, r ≠ Exit code lines) →
  match bind r (λ text, Normal (Some <$> f text)) with
  | Normal _ => True
  | Throw message => r = Throw message
  | Exit _ _ => False
  end.
Proof. destruct r as [text|m|c l]; simpl; [done|done|]. intros H. by apply (H c l). Qed.

(** What the input block of [main] can end with, when the reads of the file
    system return or throw. *)
Lemma frontier_cases (inv : Invocation) :
  (∀ code lines, stdin inv ≠ Exit code lines) →
  (∀ a code lines, readFileSync inv a ≠ Exit code lines) →
  match frontier inv with
  | Normal urls => urls ≠ []
  | Throw message =>
      stdin inv = Throw message
      ∨ ∃ a, existsSync inv a = true ∧ readFileSync inv a = Throw message
  | Exit code lines => code = 1 ∧ (lines = usage ∨ lines = ["No URLs found."])
  end.
Proof.
  intros Hin Hread. unfold frontier.
  match goal with |- match bind ?c nonempty with _ => _ end =>
    pose proof (nonempty_outcomes c usage) as Hn;
    assert (Hc : match c with
                 | Normal _ => True
                 | Throw message =>
                     stdin inv = Throw message
                     ∨ ∃ a, existsSync inv a = true ∧ readFileSync inv a = Throw message
                 | Exit code lines => code = 1 ∧ lines = usage
                 end)
  end.
  { case_bool_decide; [done|]. case_bool_decide.
    - pose proof (read_outcomes (stdin inv) stdin_urls Hin) as Hr.
      destruct (bind (stdin inv) _); [done|by left|done].
    - destruct (argv inv) as [|a rest]; [done|].
      destruct (existsSync inv a) eqn:Hex; [|done].
      pose proof (read_outcomes (readFileSync inv a) extractUrls (Hread a)) as Hr.
      destruct (bind (readFileSync inv a) _); [done| |done].
      right. by exists a. }
  match goal with |- match bind ?c nonempty with _ => _ end =>
    destruct c as [urls|m|code lines]
  end.
  - specialize (Hn I). destruct (bind (Normal urls) nonempty); [by destruct Hn|done|done].
  - done.
  - specialize (Hn Hc). simpl in *. done.
Qed.

Lemma frontier_c_cases (inv : Invocation) :
  (∀ code lines, stdin inv ≠ Exit code lines) →
  (∀ a code lines, readFileSync inv a ≠ Exit code lines) →
  match frontier_c inv with
  | Normal urls => urls ≠ []
  | Throw message =>
      stdin inv = Throw message
      ∨ ∃ a, existsSync inv a = true ∧ readFileSync inv a = Throw message
  | Exit code lines => code = 1 ∧ (lines = usage_c ∨ lines = ["No URLs found."])
  end.
Proof.
  intros Hin Hread. unfold frontier_c.
  match goal with |- match bind ?c nonempty with _ => _ end =>
    pose proof (nonempty_outcomes c usage_c) as Hn;
    assert (Hc : match c with
                 | Normal _ => True
                 | Throw message =>
                     stdin inv = Throw message
                     ∨ ∃ a, existsSync inv a = true ∧ readFileSync inv a = Throw message
                 | Exit code lines => code = 1 ∧ lines = usage_c
                 end)
  end.
  { case_bool_decide; [done|]. case_bool_decide.
    - pose proof (read_outcomes (stdin inv) stdin_urls Hin) as Hr.
      destruct (bind (stdin inv) _); [done|by left|done].
    - destruct (find _ (argv inv)) as [f|]; [|done].
      destruct (truthy (Some f)); [|done]. simpl.
      destruct (existsSync inv f) eqn:Hex; [|done].
      pose proof (read_outcomes (readFileSync inv f) extractUrls (Hread f)) as Hr.
      destruct (bind (readFileSync inv f) _); [done| |done].
      right. by exists f. }
  match goal with |- match bind ?c nonempty with _ => _ end =>
    destruct c as [urls|m|code lines]
  end.
  - specialize (Hn I). destruct (bind (Normal urls) nonempty); [by destruct Hn|done|done].
  - done.
  - specialize (Hn Hc). simpl in *. done.
Qed.

(** How [main] gets past its input, in both revisions, when the reads of
    the file system return or throw.  It hands over a list that is not
    empty (in the later revision with a pool of 1 to 20 workers); or it
    exits with status 1 after the usage text, after the message that no
    URL was found or, in the later revision, after the message on the
    concurrency; or the read of standard input or of the file throws, and
    the handler on [main] turns that error into exit status 1 as well. *)
Theorem frontier_outcomes (inv : Invocation) :
  (∀ code lines, stdin inv ≠ Exit code lines) →
  (∀ a code lines, readFileSync inv a ≠ Exit code lines) →
  match frontier inv with
  | Normal urls => urls ≠ []
  | Throw message =>
      (stdin inv = Throw message
       ∨ ∃ a, existsSync inv a = true ∧ readFileSync inv a = Throw message)
      ∧ fatal (frontier inv) = Exit 1 ["Fatal error: " +:+ message]
  | Exit code lines => code = 1 ∧ (lines = usage ∨ lines = ["No URLs found."])
  end
  ∧ match prepare inv with
    | Normal (cfg, urls) => urls ≠ [] ∧ (1 ≤ concurrency cfg ≤ 20)%nat
    | Throw message =>
        (stdin inv = Throw message
         ∨ ∃ a, existsSync inv a = true ∧ readFileSync inv a = Throw message)
        ∧ fatal (prepare inv) = Exit 1 ["Fatal error: " +:+ message]
    | Exit code lines =>
        code = 1 ∧ (lines = usage_c ∨ lines = ["No URLs found."]
                    ∨ lines = concurrency_error)
    end.
Proof.
  intros Hin Hread. split.
  - pose proof (frontier_cases inv Hin Hread) as H.
    destruct (frontier inv) as [urls|m|code lines]; [done| |done]. by split.
  - pose proof (frontier_c_cases inv Hin Hread) as H. unfold prepare.
    destruct (parse_concurrency CONFIG (argv inv)) as [cfg|m|code lines] eqn:Hp.
    + apply parse_concurrency_range in Hp. simpl.
      destruct (frontier_c inv) as [urls|m|code lines]; simpl.
      * by split.
      * by split.
      * destruct H as [-> [-> | ->]]; auto.
    + exfalso. revert Hp. unfold parse_concurrency.
      destruct (getArg _ _) as [a|]; [|done]. destruct (truthy _); [|done].
      destruct (parseInt a) as [n|]; [|done]. by destruct (_ && _).
    + simpl. revert Hp. unfold parse_concurrency.
      destruct (getArg _ _) as [a|]; [|done]. destruct (truthy _); [|done].
      destruct (parseInt a) as [n|]; [destruct (_ && _); [done|]|];
        intros [= <- <-]; auto.
Qed.

Lemma frontier_outcomes_witness :
  fatal (frontier {| argv := ["docs"]; stdin := Normal EmptyString;
                     existsSync := λ _, true;
                     readFileSync := λ _,
                       Throw "EISDIR: illegal operation on a directory, read" |})
  = Exit 1 ["Fatal error: EISDIR: illegal operation on a directory, read"].
Proof.
  pose proof (frontier_outcomes
                {| argv := ["docs"]; stdin := Normal EmptyString;
                   existsSync := λ _, true;
                   readFileSync := λ _,
                     Throw "EISDIR: illegal operation on a directory, read" |}) as H.
  destruct H as [H _].
  - intros code lines H. discriminate H.
  - intros a code lines H. discriminate H.
  - exact (proj2 H).
Defined.

Lemma stdin_urls_nonempty (input u : string) :
  u ∈ stdin_urls input → u ≠ EmptyString ∧ startsWith (trim u) "http" = true.
Proof.
  unfold stdin_urls. rewrite list_elem_of_filter. intros [Hu _].
  apply Is_true_true in Hu. split; [|done]. by intros ->.
Qed.

Lemma find_head {A : Type} (f : A → bool) (a : A) (l : list A) :
  f a = true → find f (a :: l) = Some a.
Proof. intros H. simpl. by rewrite H. Qed.

Lemma frontier_c_selects (inv : Invocation) (urls : list (option string)) :
  frontier inv = Normal urls →
  ("--url" ∈ argv inv ∨ "--stdin" ∈ argv inv
   ∨ ∃ a, head (argv inv) = Some a ∧ a ≠ EmptyString ∧ startsWith a "-" = false
          ∧ getArg (argv inv) ["-c"; "--concurrency"] ≠ Some a) →
  frontier_c inv = Normal urls.
Proof.
  unfold frontier, frontier_c. intros Hf Hsrc.
  case_bool_decide as Hu; [done|]. case_bool_decide as Hs; [done|].
  destruct Hsrc as [?|[?|(a & Ha & Hne & Hdash & Hopt)]]; [done..|].
  destruct (argv inv) as [|a' rest] eqn:Hargs; [done|]. injection Ha as ->.
  rewrite find_head.
  - simpl. destruct (String.eqb_spec a EmptyString); [done|]. simpl.
    by destruct (existsSync inv a).
  - rewrite Hdash. simpl. by rewrite bool_decide_eq_false_2.
Qed.

(** The revision with the [-c] option reads the same input as the script
    before it.  Whenever the earlier [main] hands over a list of URLs taken
    from [--url], from [--stdin], or from a file named by a first argument
    that is not empty, does not start with a dash and is not the value of
    the option, and the concurrency block of the later [main] lets the run
    go on with a configuration, the later [main] hands over the same list,
    with that configuration. *)
Theorem later_main_agrees (inv : Invocation) (urls : list (option string))
    (cfg : Config) :
  frontier inv = Normal urls →
  ("--url" ∈ argv inv ∨ "--stdin" ∈ argv inv
   ∨ ∃ a, head (argv inv) = Some a ∧ a ≠ EmptyString ∧ startsWith a "-" = false
          ∧ getArg (argv inv) ["-c"; "--concurrency"] ≠ Some a) →
  parse_concurrency CONFIG (argv inv) = Normal cfg →
  prepare inv = Normal (cfg, urls).
Proof.
  intros Hf Hsrc Hcfg. unfold prepare. rewrite Hcfg. simpl.
  by rewrite (frontier_c_selects inv urls Hf Hsrc).
Qed.

Lemma later_main_agrees_witness :
  prepare cited
  = Normal (CONFIG, [Some "https://example.org/a"; Some "https://example.org/b"]).
Proof.
  apply later_main_agrees; [reflexivity| |reflexivity].
  right. right. exists "REFERENCES.md".
  split; [reflexivity|]. split; [discriminate|]. split; [reflexivity|discriminate].
Defined.

Lemma frontier_c_truthy (inv : Invocation) (urls : list (option string)) :
  frontier_c inv = Normal urls → "--url" ∉ argv inv →
  ∃ l, urls = Some <$> l ∧ Forall (λ u, u ≠ EmptyString) l.
Proof.
  unfold frontier_c. intros Hf Hu.
  rewrite bool_decide_eq_false_2 in Hf by done.
  case_bool_decide as Hs.
  - destruct (stdin inv) as [input| |]; [|done..]. simpl in Hf.
    apply nonempty_normal in Hf as [-> _]. eexists. split; [done|].
    apply Forall_forall. intros u Hin. by apply stdin_urls_nonempty in Hin as [? _].
  - destruct (find _ (argv inv)) as [f|]; [|done].
    destruct (truthy (Some f) && existsSync inv f); [|done].
    destruct (readFileSync inv f) as [content| |]; [|done..]. simpl in Hf.
    apply nonempty_normal in Hf as [-> _]. eexists. split; [done|].
    apply Forall_forall. intros u Hin. by eapply extractUrls_nonempty.
Qed.

Lemma frontier_c_nonempty (inv : Invocation) (urls : list (option string)) :
  frontier_c inv = Normal urls → urls ≠ [].
Proof.
  unfold frontier_c.
  match goal with |- bind ?c nonempty = _ → _ => destruct c as [l| |] end;
    [|done..].
  by intros [-> ?]%nonempty_normal.
Qed.

(** From the command line to the report: when the input comes from a
    markdown file or from standard input, every schedule that runs the
    workers to their end gives a report with one result for each URL that
    [main] handed over, with [total] that number, and the list was not
    empty. *)
Theorem check_links_end_to_end (inv : Invocation) (cfg : Config)
    (urls : list (option string)) (events : list (nat * Nav)) (rs : list Result)
    (now : string) :
  prepare inv = Normal (cfg, urls) → "--url" ∉ argv inv →
  processUrls cfg urls events = Some rs →
  let report := generateReport now rs in
  urls ≠ []
  ∧ total (summary report) = length urls
  ∧ length (report_results report) = length urls
  ∧ (Some ∘ url) <$> report_results report ≡ₚ urls.
Proof.
  unfold prepare. intros Hprep Hu Hrun.
  destruct (parse_concurrency CONFIG (argv inv)) as [cfg'| |] eqn:Hcfg; [|done..].
  simpl in Hprep.
  destruct (frontier_c inv) as [urls'| |] eqn:Hfr; [|done..].
  simpl in Hprep. injection Hprep as -> ->.
  apply parse_concurrency_range in Hcfg.
  destruct (frontier_c_truthy inv urls Hfr Hu) as (l & -> & Hl).
  unfold processUrls in Hrun.
  destruct (run cfg events (start cfg (Some <$> l))) as [s|] eqn:Hs; [|done].
  destruct (completed s) eqn:Hc; [|done]. injection Hrun as <-.
  pose proof (completed_perm cfg l events s Hl ltac:(lia) Hs Hc) as Hperm.
  simpl. rewrite report_results_sort.
  assert (Hsort : Js.sort by_status (results s) ≡ₚ results s)
    by apply (sort_perm sort_key).
  split_and!.
  - by eapply frontier_c_nonempty.
  - destruct (summary_counts now (results s)) as [-> _].
    by rewrite length_fmap, <-Hperm, length_fmap.
  - by rewrite Hsort, length_fmap, <-Hperm, length_fmap.
  - rewrite Hsort, list_fmap_compose. by rewrite Hperm.
Qed.

Lemma check_links_end_to_end_witness :
  total (summary (generateReport "2025-12-07T00:00:00.000Z"
                    [checkUrl "https://example.org/a" ok_page;
                     checkUrl "https://example.org/b" ok_page])) = 2%nat.
Proof.
  apply (check_links_end_to_end cited CONFIG
           [Some "https://example.org/a"; Some "https://example.org/b"]
           five_tabs_schedule
           [checkUrl "https://example.org/a" ok_page;
            checkUrl "https://example.org/b" ok_page]
           "2025-12-07T00:00:00.000Z").
  - reflexivity.
  - intros H. apply list_elem_of_singleton in H. discriminate H.
  - reflexivity.
Defined.

(** ** refresh-data.js: what extractData returns and what it lets through *)

Section ExtractData.
Context {Data : Type}.
Implicit Types (page : Page Data) (browser : Browser Data).

Lemma EXTRACTORS_normal (e : Extractor) page (url : string) (x : Extraction Data) :
  EXTRACTORS e page url = Normal x →
  x_url x = url ∧ x_type x = e ∧ is_Some (x_data x) ∧ x_error x = None.
Proof.
  unfold EXTRACTORS. destruct (goto page url); [|done..]. simpl.
  destruct (match e with
            | instagram => try_catch (waitForSelector page) (λ _, Normal ())
            | _ => Normal ()
            end); [|done..]. simpl.
  destruct (evaluate page e); [|done..]. simpl. by intros [= <-].
Qed.

(** Whatever [extractData] returns is a record for the URL it was given,
    typed with the extractor chosen for that URL and stamped with the time;
    it is either a success with data and no error, or a failure with an
    error message and no data. *)
Theorem extractData_record (now : string) browser (url : string)
    (x : Extraction Data) :
  extractData now browser url = Normal x →
  x_url x = url ∧ x_type x = getExtractor url ∧ x_timestamp x = Some now
  ∧ ((x_success x = Some true ∧ is_Some (x_data x) ∧ x_error x = None)
     ∨ (x_success x = Some false ∧ x_data x = None ∧ is_Some (x_error x))).
Proof.
  unfold extractData. destruct (newPage browser) as [page| |]; [|done..]. simpl.
  destruct (configure page); [|done..]. simpl.
  destruct (EXTRACTORS (getExtractor url) page url) as [r|m|] eqn:Hr; simpl.
  - destruct (EXTRACTORS_normal _ _ _ _ Hr) as (Hu & Ht & Hd & He).
    destruct (close page); [|done..]. intros [= <-]. simpl.
    split_and!; [done..|]. by left.
  - destruct (close page); [|done..]. intros [= <-]. simpl.
    split_and!; [done..|]. right. by split_and!.
  - done.
Qed.

(** Only the strategy is guarded.  An error while the page is opened or
    configured reaches the caller, and so does an error while the page is
    closed, which then replaces the record, be it a success or a failure. *)
Theorem extractData_lets_through (now : string) browser page (url message : string) :
  (newPage browser = Throw message → extractData now browser url = Throw message)
  ∧ (newPage browser = Normal page → configure page = Throw message →
     extractData now browser url = Throw message)
  ∧ (newPage browser = Normal page → configure page = Normal () →
     close page = Throw message →
     (∀ code lines, EXTRACTORS (getExtractor url) page url ≠ Exit code lines) →
     extractData now browser url = Throw message).
Proof.
  unfold extractData. split_and!.
  - by intros ->.
  - intros -> Hcfg. simpl. by rewrite Hcfg.
  - intros -> Hcfg Hc Hx. simpl. rewrite Hcfg. simpl.
    destruct (EXTRACTORS (getExtractor url) page url) as [r|m|c l] eqn:Hr; simpl.
    + by rewrite Hc.
    + by rewrite Hc.
    + by destruct (Hx c l).
Qed.

(** An instagram profile whose header never shows up is still read: when
    the wait for the header fails and the rest goes well, [extractData]
    returns a success with the data of the page. *)
Theorem instagram_without_header (now : string) browser page (url message : string)
    (data : Data) :
  includes url "instagram.com" = true →
  newPage browser = Normal page → configure page = Normal () →
  goto page url = Normal () → waitForSelector page = Throw message →
  evaluate page instagram = Normal data → close page = Normal () →
  extractData now browser url
  = Normal {| x_url := url; x_type := instagram; x_data := Some data;
              x_success := Some true; x_error := None; x_timestamp := Some now |}.
Proof.
  intros Hi Hnew Hcfg Hgo Hwait Hev Hclose. unfold extractData, getExtractor.
  rewrite Hnew, Hi. simpl. rewrite Hcfg. simpl.
  unfold EXTRACTORS. rewrite Hgo, Hwait. simpl. rewrite Hev. simpl.
  by rewrite Hclose.
Qed.

End ExtractData.

Lemma extractData_record_witness :
  ∃ x, extractData "2025-12-07T00:00:00.000Z" {| newPage := Normal unresolved_page |}
         "https://www.statista.com/statistics/1" = Normal x
       ∧ x_type x = statista ∧ x_success x = Some false.
Proof.
  eexists. split; [reflexivity|].
  destruct (extractData_record "2025-12-07T00:00:00.000Z"
              {| newPage := Normal unresolved_page |}
              "https://www.statista.com/statistics/1" _ eq_refl)
    as (_ & Ht & _ & [(Hs & _)|(Hs & _)]).
  - discriminate Hs.
  - split; [exact Ht|exact Hs].
Defined.

Lemma extractData_lets_through_witness :
  extractData "2025-12-07T00:00:00.000Z"
    {| newPage := Normal {| configure := Normal (); goto := λ _, Normal ();
                            waitForSelector := Normal ();
                            evaluate := λ _, Normal [("title", "Example")];
                            close := Throw "Protocol error: Target closed" |} |}
    "https://example.org/a"
  = Throw "Protocol error: Target closed".
Proof.
  eapply extractData_lets_through; [reflexivity|reflexivity|reflexivity|].
  intros code lines H. discriminate H.
Defined.

Lemma instagram_without_header_witness :
  extractData "2025-12-07T00:00:00.000Z"
    {| newPage := Normal {| configure := Normal (); goto := λ _, Normal ();
                            waitForSelector := Throw "Waiting for selector `header` failed";
                            evaluate := λ _, Normal [("followers", "577K")];
                            close := Normal () |} |}
    "https://www.instagram.com/royalbit/"
  = Normal {| x_url := "https://www.instagram.com/royalbit/"; x_type := instagram;
              x_data := Some [("followers", "577K")]; x_success := Some true;
              x_error := None; x_timestamp := Some "2025-12-07T00:00:00.000Z" |}.
Proof.
  eapply instagram_without_header; reflexivity.
Defined.

(** ** refresh-data.js: the work list *)

Lemma behind_append (p r : string) : behind (String.length p) (p +:+ r) = r.
Proof.
  unfold behind. induction p as [|c p IH].
  - rewrite append_nil_l. simpl. by rewrite Nat.sub_0_r, substring_all.
  - rewrite append_cons. simpl. apply IH.
Qed.

Lemma match_path_shape (pre s m : string) :
  match_path pre s = Some m →
  ∃ path, m = pre +:+ ".com/" +:+ path ∧ path ≠ EmptyString.
Proof.
  unfold match_path. destruct (String.prefix ".com/" s); [|done].
  destruct (path_run (behind 5 s)) as [|c path]; [done|].
  intros [= <-]. by eexists.
Qed.

Lemma match_host_shape (hosts : list string) (pre s m : string) :
  match_host hosts pre s = Some m →
  ∃ h path, h ∈ hosts ∧ m = pre +:+ h +:+ ".com/" +:+ path ∧ path ≠ EmptyString.
Proof.
  induction hosts as [|h hosts IH]; [done|]. simpl.
  destruct (String.prefix h s).
  - destruct (match_path (pre +:+ h) _) as [m'|] eqn:Hp; simpl.
    + intros [= ->]. destruct (match_path_shape _ _ _ Hp) as (path & -> & Hne).
      exists h, path. split_and!; [by left| |done]. by rewrite append_assoc.
    + intros (h' & path & ? & ?)%IH. exists h', path. split; [by right|done].
  - simpl. intros (h' & path & ? & ?)%IH. exists h', path. split; [by right|done].
Qed.

Lemma match_site_shape (hosts : list string) (s m : string) :
  match_site hosts s = Some m →
  ∃ front h path, h ∈ hosts ∧ m = front +:+ h +:+ ".com/" +:+ path
                  ∧ path ≠ EmptyString.
Proof.
  assert (Hwww : ∀ pre t, match_www hosts pre t = Some m →
            ∃ front h path, h ∈ hosts ∧ m = front +:+ h +:+ ".com/" +:+ path
                            ∧ path ≠ EmptyString).
  { intros pre t. unfold match_www. destruct (String.prefix "www." t).
    - destruct (match_host hosts (pre +:+ "www.") _) as [m'|] eqn:Hh; simpl.
      + intros [= ->]. destruct (match_host_shape _ _ _ _ Hh) as (h & path & ?).
        by exists (pre +:+ "www."), h, path.
      + intros (h & path & ?)%match_host_shape. by exists pre, h, path.
    - simpl. intros (h & path & ?)%match_host_shape. by exists pre, h, path. }
  assert (Hsl : ∀ pre t, match_slashes hosts pre t = Some m →
            ∃ front h path, h ∈ hosts ∧ m = front +:+ h +:+ ".com/" +:+ path
                            ∧ path ≠ EmptyString).
  { intros pre t. unfold match_slashes. destruct (String.prefix "://" t); [|done].
    apply Hwww. }
  unfold match_site. destruct (String.prefix "http" s); [|done].
  destruct (match behind 4 s with
            | String "s" r' => match_slashes hosts "https" r'
            | _ => None
            end) as [m'|] eqn:Hs; simpl.
  - intros [= ->]. destruct (behind 4 s) as [|c r']; [done|].
    destruct (Ascii.ascii_dec c "s") as [->|Hc]; [by eapply Hsl|].
    exfalso. revert Hs. clear -Hc. destruct c as [[] [] [] [] [] [] [] []]; done.
  - apply Hsl.
Qed.

Lemma match_sites_elem (hosts : list string) (k : nat) (s m : string) :
  m ∈ match_sites hosts k s →
  ∃ front h path, h ∈ hosts ∧ m = front +:+ h +:+ ".com/" +:+ path
                  ∧ path ≠ EmptyString.
Proof.
  revert k. induction s as [|c s IH]; intros k; [by intros ?%elem_of_nil|].
  cbn [match_sites]. destruct k as [|k]; [|apply IH].
  destruct (match_site hosts (String c s)) as [m'|] eqn:Hm; [|apply IH].
  intros [->|Hin]%elem_of_cons; [by eapply match_site_shape|by eapply IH].
Qed.

Lemma clean_site (front h path : string) :
  clean (front +:+ h +:+ ".com/" +:+ path) = front +:+ h +:+ ".com/" +:+ clean path.
Proof.
  rewrite <-!append_assoc.
  change (((front +:+ h) +:+ ".com/") +:+ path)
    with (((front +:+ h) +:+ ".com/") +:+ path).
  replace (((front +:+ h) +:+ ".com/") +:+ path)
    with (((front +:+ h) +:+ ".com") +:+ String "/" path)
    by (by rewrite !append_assoc).
  rewrite clean_keep by done. by rewrite !append_assoc.
Qed.

Lemma map_set_keys (k : string) (v : Entry) (m : list (string * Entry)) :
  (∀ e, e ∈ snd <$> map_set k v m → e = v ∨ e ∈ snd <$> m)
  ∧ (fst <$> map_set k v m
     = if bool_decide (k ∈ fst <$> m) then fst <$> m else (fst <$> m) ++ [k]).
Proof.
  induction m as [|[k' v'] m [IHe IHk]].
  - split; [|done]. intros e ->%list_elem_of_singleton. by left.
  - cbn [map_set]. destruct (String.eqb_spec k' k) as [->|Hne]; rewrite !fmap_cons.
    + split.
      * intros e [->|He]%elem_of_cons; [by left|]. right. by right.
      * simpl. rewrite bool_decide_eq_true_2; [done|by left].
    + split.
      * intros e [->|He]%elem_of_cons; [right; by left|].
        destruct (IHe e He) as [?|?]; [by left|]. right. by right.
      * rewrite IHk. simpl. case_bool_decide as Hin.
        -- rewrite bool_decide_eq_true_2; [done|by right].
        -- rewrite bool_decide_eq_false_2; [done|].
           rewrite not_elem_of_cons. split; [congruence|done].
Qed.

Lemma map_values_spec (urls : list Entry) :
  (∀ e, e ∈ map_values urls → e ∈ urls) ∧ NoDup (e_url <$> map_values urls).
Proof.
  unfold map_values.
  assert (H : ∀ m : list (string * Entry),
            NoDup (fst <$> m) → Forall (λ kv, kv.1 = e_url kv.2) m →
            let out := fold_left (λ m u, map_set (e_url u) u m) urls m in
            (∀ e, e ∈ snd <$> out → e ∈ urls ∨ e ∈ snd <$> m)
            ∧ NoDup (fst <$> out) ∧ Forall (λ kv, kv.1 = e_url kv.2) out).
  { induction urls as [|u urls IH]; intros m Hnd Hk; simpl.
    - split_and!; auto.
    - destruct (map_set_keys (e_url u) u m) as [He Hkeys].
      destruct (IH (map_set (e_url u) u m)) as (IH1 & IH2 & IH3).
      + rewrite Hkeys. case_bool_decide; [done|].
        apply NoDup_app. split_and!; [done| |apply NoDup_singleton].
        by intros x Hx ->%list_elem_of_singleton.
      + clear -Hk. induction m as [|[k' v'] m IHm]; simpl.
        * by repeat constructor.
        * apply Forall_cons in Hk as [Hk1 Hk2].
          destruct (String.eqb_spec k' (e_url u)) as [->|Hne].
          -- constructor; [done|done].
          -- constructor; [done|by apply IHm].
      + split_and!; [|done|done].
        intros e Hin. destruct (IH1 e Hin) as [?|Hm]; [left; by right|].
        destruct (He e Hm) as [->|?]; [left; by left|by right]. }
  destruct (H [] ltac:(constructor) ltac:(constructor)) as (H1 & H2 & H3).
  split.
  - intros e He. destruct (H1 e He) as [?|Hn]; [done|]. by apply elem_of_nil in Hn.
  - revert H2 H3. generalize (fold_left (λ m u, map_set (e_url u) u m) urls []).
    intros out Hnd Hk.
    replace (e_url <$> (snd <$> out)) with (fst <$> out); [done|].
    clear Hnd. induction Hk as [|[k v] out Hkv _ IH]; [done|].
    rewrite !fmap_cons. simpl in Hkv. cbn [fst snd]. by f_equal.
Qed.

Lemma includes_middle (front p rest : string) :
  includes (front +:+ p +:+ rest) p = true.
Proof.
  apply includes_append, includes_self_prefix, prefix_app. by exists rest.
Qed.

Lemma patterns_cases (hosts : list string) (type h : string) :
  (hosts, type) ∈ patterns → h ∈ hosts →
  h ≠ EmptyString
  ∧ ((type = "instagram" ∧ h = "instagram")
     ∨ (type = "statista" ∧ h = "statista")
     ∨ type = "market").
Proof.
  unfold patterns. rewrite !elem_of_cons, elem_of_nil.
  intros [[= -> ->]|[[= -> ->]|[[= -> ->]|[]]]];
    rewrite !elem_of_cons, elem_of_nil; intros Hh.
  - destruct Hh as [->|[]]. split; [done|]. by left.
  - destruct Hh as [->|[]]. split; [done|]. right. by left.
  - destruct Hh as [->|[->|[->|[]]]]; (split; [done|]); right; by right.
Qed.

(** The work list scanned from the references file has each URL once; an
    entry has one of the three types and a URL that is not empty and has
    [.com/] in it; and an entry of type instagram is handled by the
    instagram extractor. *)
Theorem getExtractableUrls_entries (content : string) :
  NoDup (e_url <$> getExtractableUrls content)
  ∧ ∀ e, e ∈ getExtractableUrls content →
      e_type e ∈ ["instagram"; "statista"; "market"]
      ∧ e_url e ≠ EmptyString
      ∧ includes (e_url e) ".com/" = true
      ∧ (e_type e = "instagram" → getExtractor (e_url e) = instagram).
Proof.
  unfold getExtractableUrls.
  destruct (map_values_spec
              (patterns ≫= λ p,
                 (λ url, {| e_url := clean url; e_type := p.2 |})
                   <$> match_sites p.1 0 content)) as [Hsub Hnd].
  split; [done|]. intros e He. apply Hsub in He.
  apply list_elem_of_bind in He as ([hosts type] & He & Hp).
  apply list_elem_of_fmap in He as (m & -> & Hm). simpl in *.
  destruct (match_sites_elem _ _ _ _ Hm) as (front & h & path & Hh & -> & Hne).
  rewrite clean_site.
  destruct (patterns_cases _ _ _ Hp Hh) as [Hhne Hcases].
  split_and!.
  - rewrite !elem_of_cons.
    destruct Hcases as [[-> _]|[[-> _]| ->]]; auto.
  - destruct front; [|done]. by destruct h.
  - rewrite <-!append_assoc. rewrite append_assoc.
    apply (includes_middle _ ".com/").
  - intros ->. destruct Hcases as [[_ ->]|[[? _]|?]]; [|done..].
    unfold getExtractor.
    change ("instagram" +:+ ".com/" +:+ clean path)
      with ("instagram.com" +:+ "/" +:+ clean path).
    by rewrite includes_middle.
Qed.

(** ** refresh-data.js: the batch *)

Section Batch.
Context {Data : Type}.

(** A strategy that fails does not stop the batch: as long as every page
    opens, is configured and closes normally, the loop returns one record
    per entry of the work list, in order, each for its URL, and a record
    is a success exactly when the strategy of its URL returned. *)
Theorem extract_all_survives (now : string) (site : string → Browser Data)
    (urls : list Entry) :
  (∀ u, u ∈ urls →
     ∃ page, newPage (site (e_url u)) = Normal page
             ∧ configure page = Normal () ∧ close page = Normal ()
             ∧ ∀ code lines,
                 EXTRACTORS (getExtractor (e_url u)) page (e_url u) ≠ Exit code lines) →
  ∃ results, extract_all now site urls = Normal results
             ∧ x_url <$> results = e_url <$> urls
             ∧ Forall2 (λ u r, ∀ page, newPage (site (e_url u)) = Normal page →
                          (x_success r = Some true
                           ↔ ∃ x, EXTRACTORS (getExtractor (e_url u)) page (e_url u)
                                  = Normal x))
                 urls results.
Proof.
  induction urls as [|u urls IH]; intros Hok.
  - exists []. by split_and!.
  - destruct IH as (results & Hres & Hurls & Hall).
    { intros v Hv. apply Hok. by right. }
    destruct (Hok u ltac:(by left)) as (page & Hnew & Hcfg & Hclose & Hexit).
    cbn [extract_all]. unfold extractData. rewrite Hnew. simpl. rewrite Hcfg. simpl.
    destruct (EXTRACTORS (getExtractor (e_url u)) page (e_url u)) as [x|m|c l] eqn:Hx;
      simpl.
    + apply EXTRACTORS_normal in Hx as Hshape. destruct Hshape as (Hu & _).
      rewrite Hclose, Hres. simpl. eexists. split; [done|]. split.
      * rewrite !fmap_cons. simpl. by rewrite Hu, Hurls.
      * constructor; [|done]. intros page' Hp'. rewrite Hnew in Hp'.
        injection Hp' as <-. rewrite Hx. simpl. split; [by eexists|done].
    + rewrite Hclose, Hres. simpl. eexists. split; [done|]. split.
      * rewrite !fmap_cons. simpl. by rewrite Hurls.
      * constructor; [|done]. intros page' Hp'. rewrite Hnew in Hp'.
        injection Hp' as <-. rewrite Hx. simpl. split; [done|]. by intros (x & ?).
    + by destruct (Hexit c l).
Qed.

(** The ways [main] of refresh-data ends before any page is opened, each
    with exit status 1: [--url] without a value (the error is thrown by
    [getExtractor]), a references file that cannot be read, and a
    references file in which nothing extractable is found. *)
Theorem refresh_data_fatal (now : string) (w : World Data) :
  ("--url" ∈ w_argv w →
   at_index (w_argv w) (indexOf "--url" (w_argv w) + 1) = None →
   program now w
   = Exit 1 ["Fatal error: Cannot read properties of undefined (reading 'includes')"])
  ∧ (∀ message, "--url" ∉ w_argv w → references w = Throw message →
       program now w = Exit 1 ["Fatal error: " +:+ message])
  ∧ (∀ content, "--url" ∉ w_argv w → references w = Normal content →
       getExtractableUrls content = [] →
       program now w = Exit 1 ["No extractable URLs found."]).
Proof.
  unfold program, main, targets. split_and!.
  - intros Hu Hv. by rewrite bool_decide_eq_true_2, Hv.
  - intros message Hu Hr. rewrite bool_decide_eq_false_2 by done.
    case_bool_decide; by rewrite Hr.
  - intros content Hu Hr He. rewrite bool_decide_eq_false_2 by done.
    case_bool_decide; rewrite Hr; simpl; by rewrite He.
Qed.

End Batch.

Lemma extract_all_survives_witness :
  ∃ results,
    extract_all "2025-12-07T00:00:00.000Z"
      (λ u, if String.eqb u "https://www.statista.com/statistics/1"
            then {| newPage := Normal unresolved_page |}
            else {| newPage := Normal destroyed_page |})
      [ {| e_url := "https://www.statista.com/statistics/1"; e_type := "statista" |};
        {| e_url := "https://www.instagram.com/royalbit/"; e_type := "instagram" |} ]
    = Normal results
    ∧ x_url <$> results
      = ["https://www.statista.com/statistics/1"; "https://www.instagram.com/royalbit/"].
Proof.
  destruct (extract_all_survives "2025-12-07T00:00:00.000Z"
      (λ u, if String.eqb u "https://www.statista.com/statistics/1"
            then {| newPage := Normal unresolved_page |}
            else {| newPage := Normal destroyed_page |})
      [ {| e_url := "https://www.statista.com/statistics/1"; e_type := "statista" |};
        {| e_url := "https://www.instagram.com/royalbit/"; e_type := "instagram" |} ])
    as (results & Hres & Hurls & _).
  - intros u Hu. apply elem_of_cons in Hu as [->|Hu].
    + exists unresolved_page. split_and!; try reflexivity. intros c l H. discriminate H.
    + apply list_elem_of_singleton in Hu as ->.
      exists destroyed_page. split_and!; try reflexivity. intros c l H. discriminate H.
  - exists results. split; [exact Hres|exact Hurls].
Defined.

Lemma refresh_data_fatal_witness :
  program "2025-12-07T00:00:00.000Z" no_references
  = Exit 1 ["Fatal error: ENOENT: no such file or directory, open '../REFERENCES.md'"].
Proof.
  apply (proj1 (proj2 (refresh_data_fatal "2025-12-07T00:00:00.000Z" no_references))
           "ENOENT: no such file or directory, open '../REFERENCES.md'").
  - intros H. apply list_elem_of_singleton in H. discriminate H.
  - reflexivity.
Defined.
